(** * A transaction-logged key-value store: the PostgreSQL logger and its replay

    Shallow embedding of [db.go] (the PostgreSQL transaction logger)
    and of the store operations and the start-up replay of [main.go].

    Conventions.
    - A Go [error] is its message; the nil error is [None].
    - A Go channel is its buffer, its capacity and its closed flag; a nil
      channel is [None].  Goroutines are modelled by transition relations
      over a state that holds the channels they share.
    - [database/sql] and the PostgreSQL server are outside the program: the
      server is a small state machine answering the four statements the
      program issues, and a failure of the connection is an explicit
      [fault] argument of the call it hits. *)

From Stdlib Require Import ZArith String Ascii List Lia Bool.
From stdpp Require Import base tactics option list relations strings gmap sorting.

Local Open Scope string_scope.
Local Open Scope list_scope.
Local Open Scope Z_scope.

(** ** Go values *)

Abbreviation error := string.

(** [fmt.Errorf("<prefix>: %w", err)] *)
Definition Errorf (prefix : string) (err : error) : error := prefix +:+ ": " +:+ err.

(** What a call does when it comes back: it returns, or it panics. *)
Inductive result (A : Type) : Type :=
  | Returns (a : A)
  | Panics (msg : string).
Arguments Returns {A} a.
Arguments Panics {A} msg.

(** [defer d] placed before [body]: [body] is evaluated, then [d] runs; a
    panic of [d] replaces the value [body] was about to return. *)
Definition defer {A : Type} (d : result unit) (body : A) : result A :=
  match d with
  | Returns _ => Returns body
  | Panics msg => Panics msg
  end.

(** The constants [EventDelete] and [EventPut] and the integer type
    [EventType] they belong to are declared in a file of the package other
    than [db.go] and [main.go]; they are taken as parameters.
    [EventType_fits v] tells whether the integer [v] read from a SMALLINT
    column is representable in the Go type. *)
Class EventTypes : Type := {
  EventDelete : Z;
  EventPut : Z;
  EventType_fits : Z → bool
}.

(** The struct [Event], with the fields the two files use. *)
Record Event : Type := {
  Sequence : Z;
  EventType : Z;
  Key : string;
  Value : string
}.

(** [Event{}] *)
Definition Event_zero : Event :=
  {| Sequence := 0; EventType := 0; Key := ""; Value := "" |}.

Global Instance Event_eq_dec : EqDecision Event.
Proof. solve_decision. Defined.

(** ** Channels *)

Module Chan.

Record chan (A : Type) : Type := {
  buf : list A;
  cap : nat;
  closed : bool
}.
Arguments buf {A} c.
Arguments cap {A} c.
Arguments closed {A} c.

(** [make(chan A, n)] *)
Definition make (A : Type) (n : nat) : chan A :=
  {| buf := []; cap := n; closed := false |}.

(** [c <- x] on a buffered channel that nobody is receiving from: [None]
    when the sender has to wait.  A nil channel makes the sender wait
    for ever. *)
Definition send {A : Type} (c : option (chan A)) (x : A) : option (chan A) :=
  match c with
  | None => None
  | Some ch =>
      if (length (buf ch) <? cap ch)%nat
      then Some {| buf := buf ch ++ [x]; cap := cap ch; closed := closed ch |}
      else None
  end.

(** [x, ok = <-c] on a buffered channel: [None] when the receiver has to
    wait; a closed and drained channel yields [zero] and [false]. *)
Definition recv {A : Type} (zero : A) (ch : chan A) : option (A * bool * chan A) :=
  match buf ch with
  | x :: rest => Some (x, true, {| buf := rest; cap := cap ch; closed := closed ch |})
  | [] => if closed ch then Some (zero, false, ch) else None
  end.

(** [close(c)] *)
Definition close {A : Type} (ch : chan A) : chan A :=
  {| buf := buf ch; cap := cap ch; closed := true |}.

End Chan.

(** ** The database server and [database/sql] *)

Module Sql.

(** A row of the table [transactions]: [sequence] is the primary key,
    the other three columns are nullable. *)
Record Row : Type := {
  row_sequence : Z;
  row_event_type : option Z;
  row_key : option string;
  row_value : option string
}.

Global Instance Row_eq_dec : EqDecision Row.
Proof. solve_decision. Defined.

(** The server: the table (absent until created), the next value of the
    BIGSERIAL sequence, and the statements received so far (oldest
    first). *)
Record Database : Type := {
  relation : option (list Row);
  serial : Z;
  journal : list string
}.

Definition record_statement (q : string) (srv : Database) : Database :=
  {| relation := relation srv; serial := serial srv; journal := journal srv ++ [q] |}.

(** A result set as [*sql.Rows] walks it: the rows [Next] will yield and
    the error [Err] reports once [Next] has returned false. *)
Record Rows (A : Type) : Type := {
  cursor : list A;
  rows_err : option error
}.
Arguments cursor {A} r.
Arguments rows_err {A} r.

(** [Close] of [sql.Rows] dereferences its receiver: on the nil pointer
    that [Query] returns together with an error it panics. *)
Definition Close {A : Type} (rows : option (Rows A)) : result unit :=
  match rows with
  | Some _ => Returns tt
  | None => Panics "invalid memory address or nil pointer dereference"
  end.

Definition is_space (c : ascii) : bool :=
  (Ascii.eqb c " " || Ascii.eqb c "009" || Ascii.eqb c "010" || Ascii.eqb c "013")%bool.

(** The grammar of CREATE TABLE has no empty element in the column list:
    a comma directly before the closing parenthesis (white space apart)
    is a syntax error.  [prev] is the last character seen that is not
    white space. *)
Fixpoint dangling_comma (prev : ascii) (q : string) : bool :=
  match q with
  | EmptyString => false
  | String c q' =>
      if is_space c then dangling_comma prev q'
      else if (Ascii.eqb c ")" && Ascii.eqb prev ",")%bool then true
      else dangling_comma c q'
  end.

(** The server's answer to a CREATE TABLE statement. *)
Definition create_table (q : string) (srv : Database) : Database * option error :=
  let srv := record_statement q srv in
  if dangling_comma " " q then (srv, Some "pq: syntax error at or near )")
  else match relation srv with
       | Some _ => (srv, Some "pq: relation already exists")
       | None => ({| relation := Some []; serial := 1; journal := journal srv |}, None)
       end.

(** [SELECT to_regclass('public.<table>')]: one row with one cell, the
    name of the relation as the server prints it with [public] on the
    search path, NULL when there is none. *)
Definition select_regclass (q table : string) (srv : Database)
  : Database * list (option string) :=
  (record_statement q srv,
   [match relation srv with Some _ => Some table | None => None end]).

(** The range of a SMALLINT column. *)
Definition smallint (v : Z) : bool := ((-32768 <=? v) && (v <=? 32767))%bool.

(** [INSERT INTO <table> (event_type, key, value) VALUES ($1, $2, $3)]:
    the server draws the sequence number. *)
Definition insert_event (q : string) (event_type : Z) (key value : string)
    (srv : Database) : Database * option error :=
  let srv := record_statement q srv in
  match relation srv with
  | None => (srv, Some "pq: relation does not exist")
  | Some rows =>
      if smallint event_type
      then ({| relation := Some (rows ++ [{| row_sequence := serial srv;
                                            row_event_type := Some event_type;
                                            row_key := Some key;
                                            row_value := Some value |}]);
              serial := serial srv + 1;
              journal := journal srv |}, None)
      else (srv, Some "pq: smallint out of range")
  end.

Fixpoint insert_by_sequence (r : Row) (sorted : list Row) : list Row :=
  match sorted with
  | [] => [r]
  | r' :: rest =>
      if row_sequence r <=? row_sequence r' then r :: sorted
      else r' :: insert_by_sequence r rest
  end.

(** ORDER BY sequence *)
Definition order_by_sequence (rows : list Row) : list Row :=
  foldr insert_by_sequence [] rows.

(** [SELECT sequence, event_type, key, value FROM <table> ORDER BY sequence] *)
Definition select_events (q : string) (srv : Database)
  : Database * (list Row + error) :=
  let srv := record_statement q srv in
  match relation srv with
  | None => (srv, inr "pq: relation does not exist")
  | Some rows => (srv, inl (order_by_sequence rows))
  end.

(** A failure of the connection while a result set is walked: [Next]
    returns false after [n] rows and [Err] reports the error. *)
Definition walk {A : Type} (rows : list A) (broken : option (nat * error)) : Rows A :=
  match broken with
  | None => {| cursor := rows; rows_err := None |}
  | Some (n, err) => {| cursor := take n rows; rows_err := Some err |}
  end.

End Sql.

Export Sql.

(** ** [db.go]: the PostgreSQL transaction logger *)

Definition TABLE : string := "transactions".

Record PostgresDBParams : Type := {
  dbName : string;
  host : string;
  user : string;
  password : string
}.

(** The handle [*sql.DB]: the data source it was opened on. *)
Record DB : Type := { dataSource : string }.

Record PostgresTransactionLogger : Type := {
  events : option (Chan.chan Event);
  errors : option (Chan.chan error);
  db : DB
}.

(** The failures of the connection, one per call of [database/sql]: at
    [sql.Open], at [Ping], at a [Query] (the probe of the constructor,
    the SELECT of [ReadEvents]), while the rows of that query are walked
    (after so many rows), and at the [Exec] of [createTable]. *)
Record Faults : Type := {
  open_fault : option error;
  ping_fault : option error;
  query_fault : option error;
  walk_fault : option (nat * error);
  exec_fault : option error
}.

Definition no_faults : Faults :=
  {| open_fault := None; ping_fault := None; query_fault := None;
     walk_fault := None; exec_fault := None |}.

(** The pointer [Query] returns: nil together with an error. *)
Definition rows_ptr {A : Type} (found : Rows A + error) : option (Rows A) :=
  match found with
  | inl rows => Some rows
  | inr _ => None
  end.

(** [for rows.Next() && result != TABLE { rows.Scan(&result) }]: a NULL
    cell makes [Scan] fail, which the loop ignores, and leaves [result]
    as it was. *)
Fixpoint scan_regclass (cells : list (option string)) (result : string) : string :=
  match cells with
  | [] => result
  | cell :: cells' =>
      if String.eqb result TABLE then result
      else scan_regclass cells' (match cell with Some name => name | None => result end)
  end.

Definition verifyTableExists (f : Faults) (srv : Database)
  : Database * result (bool * option error) :=
  let query := "SELECT to_regclass('public." +:+ TABLE +:+ "');" in
  let '(srv, found) :=
    match query_fault f with
    | Some err => (srv, inr err)
    | None => let '(srv, cells) := select_regclass query TABLE srv in
              (srv, inl (walk cells (walk_fault f)))
    end in
  (srv,
   defer (Close (rows_ptr found))
     match found with
     | inr err => (false, Some err)
     | inl rows =>
         let result := scan_regclass (cursor rows) "" in
         (String.eqb result TABLE, rows_err rows)
     end).

Definition createCommand (table : string) : string :=
  "CREATE TABLE " +:+ table +:+ "(
		sequence BIGSERIAL PRIMARY KEY,
		event_type SMALLINT,
		key TEXT,
		value TEXT,
	);".

Definition createTable (f : Faults) (srv : Database) : Database * option error :=
  let createQuery := createCommand TABLE in
  match exec_fault f with
  | Some err => (srv, Some err)
  | None => create_table createQuery srv
  end.

Definition NewPostgresTransactionLogger (config : PostgresDBParams) (f : Faults)
    (srv : Database)
  : Database * result (option PostgresTransactionLogger * option error) :=
  let connStr :=
    "host=" +:+ host config +:+ " dbname=" +:+ dbName config +:+
    " user=" +:+ user config +:+ " password=" +:+ password config in
  match open_fault f with
  | Some err => (srv, Returns (None, Some (Errorf "failed to open db" err)))
  | None =>
      match ping_fault f with
      | Some err => (srv, Returns (None, Some (Errorf "failed to open db connection" err)))
      | None =>
          let logger := {| events := None; errors := None;
                           db := {| dataSource := connStr |} |} in
          match verifyTableExists f srv with
          | (srv, Panics msg) => (srv, Panics msg)
          | (srv, Returns (_, Some err)) =>
              (srv, Returns (None, Some (Errorf "failed to verify table exists" err)))
          | (srv, Returns (true, None)) => (srv, Returns (Some logger, None))
          | (srv, Returns (false, None)) =>
              match createTable f srv with
              | (srv, Some err) =>
                  (srv, Returns (None, Some (Errorf "failed to create table" err)))
              | (srv, None) => (srv, Returns (Some logger, None))
              end
          end
      end
  end.

Section WithEventTypes.

Context `{EventTypes}.

(** [l.events <- Event{EventType: EventPut, Key: key, Value: value}];
    [None] when the sender has to wait. *)
Definition WritePut (l : PostgresTransactionLogger) (key value : string)
  : option PostgresTransactionLogger :=
  match Chan.send (events l)
          {| Sequence := 0; EventType := EventPut; Key := key; Value := value |} with
  | Some ch => Some {| events := Some ch; errors := errors l; db := db l |}
  | None => None
  end.

(** [l.events <- Event{EventType: EventDelete, Key: key}] *)
Definition WriteDelete (l : PostgresTransactionLogger) (key : string)
  : option PostgresTransactionLogger :=
  match Chan.send (events l)
          {| Sequence := 0; EventType := EventDelete; Key := key; Value := "" |} with
  | Some ch => Some {| events := Some ch; errors := errors l; db := db l |}
  | None => None
  end.

Definition Err (l : PostgresTransactionLogger) : option (Chan.chan error) := errors l.

End WithEventTypes.

(** ** [ReadEvents]: the goroutine that streams the log *)

(** What the goroutine of [ReadEvents] does to its two channels. *)
Inductive action : Type :=
  | SendEvent (e : Event)         (* outEvent <- e *)
  | SendError (err : error)       (* outError <- err *)
  | CloseError                    (* close(outError) *)
  | CloseEvent.                   (* close(outEvent) *)

Global Instance action_eq_dec : EqDecision action.
Proof. solve_decision. Defined.

Section ReadEvents.

Context `{EventTypes}.

(** [rows.Scan(&e.Sequence, &e.EventType, &e.Key, &e.Value)]: the
    destinations are assigned from left to right, and the first cell
    that does not convert stops the scan, the earlier assignments
    staying in place. *)
Definition Scan (r : Row) (e : Event) : Event * option error :=
  if row_sequence r <? 0
  then (e, Some "sql: Scan error on column index 0: converting to uint64")
  else
    let e := {| Sequence := row_sequence r; EventType := EventType e;
                Key := Key e; Value := Value e |} in
    match row_event_type r with
    | None => (e, Some "sql: Scan error on column index 1: converting NULL")
    | Some t =>
        if negb (EventType_fits t)
        then (e, Some "sql: Scan error on column index 1: value out of range")
        else
          let e := {| Sequence := Sequence e; EventType := t;
                      Key := Key e; Value := Value e |} in
          match row_key r with
          | None => (e, Some "sql: Scan error on column index 2: converting NULL to string")
          | Some k =>
              let e := {| Sequence := Sequence e; EventType := EventType e;
                          Key := k; Value := Value e |} in
              match row_value r with
              | None =>
                  (e, Some "sql: Scan error on column index 3: converting NULL to string")
              | Some v =>
                  ({| Sequence := Sequence e; EventType := EventType e;
                      Key := Key e; Value := v |}, None)
              end
          end
    end.

(** The loop [for rows.Next() { ... }] and the check of [rows.Err()]
    after it; [e] is the variable declared before the loop. *)
Fixpoint stream (cursor : list Row) (rows_err : option error) (e : Event)
  : list action :=
  match cursor with
  | [] =>
      match rows_err with
      | Some err => [SendError (Errorf "transaction log read failure" err)]
      | None => []
      end
  | r :: cursor' =>
      let '(e, err) := Scan r e in
      match err with
      | Some err => [SendError (Errorf "error reading row" err)]
      | None => SendEvent e :: stream cursor' rows_err e
      end
  end.

(** The body of the goroutine, followed by its deferred calls, last
    deferred first: [close(outError)], then [close(outEvent)]. *)
Definition ReadEvents_goroutine (f : Faults) (srv : Database)
  : Database * list action :=
  let query := "SELECT sequence, event_type, key, value FROM " +:+ TABLE +:+
               " ORDER BY sequence" in
  let '(srv, body) :=
    match query_fault f with
    | Some err => (srv, [SendError (Errorf "sql query error" err)])
    | None =>
        match select_events query srv with
        | (srv, inr err) => (srv, [SendError (Errorf "sql query error" err)])
        | (srv, inl found) =>
            let rows := walk found (walk_fault f) in
            (srv, stream (cursor rows) (rows_err rows) Event_zero)
        end
    end in
  (srv, body ++ [CloseError; CloseEvent]).

(** [ReadEvents] makes [outEvent], unbuffered, and [outError], with room
    for one error, starts the goroutine and returns the two channels. *)
Definition ReadEvents (f : Faults) (srv : Database)
  : Chan.chan Event * Chan.chan (option error) * (Database * list action) :=
  (Chan.make Event 0, Chan.make (option error) 1, ReadEvents_goroutine f srv).

(** The events and the errors a sequence of actions sends. *)
Definition sent_events (script : list action) : list Event :=
  omap (λ a, match a with SendEvent e => Some e | _ => None end) script.

Definition sent_errors (script : list action) : list error :=
  omap (λ a, match a with SendError err => Some err | _ => None end) script.

End ReadEvents.

(** ** [Run]: the write pipeline *)

(** [Run] makes the two channels and stores them in the logger; the
    goroutine it starts is the writer of the machine [Live] below. *)
Definition Run (l : PostgresTransactionLogger) : PostgresTransactionLogger :=
  {| events := Some (Chan.make Event 16);
     errors := Some (Chan.make error 1);
     db := db l |}.

(** ** [main.go]: the store and its operations *)

(** The package variables [store] (its map; the lock only serialises the
    accesses) and [logger]. *)
Record Globals : Type := {
  store : gmap string string;
  logger : PostgresTransactionLogger
}.

Definition ErrorNoSuchKey : error := "no such key".

Section Store.

Context `{EventTypes}.

(** A call of [Put] or [Delete] runs up to the send inside the logger.
    The second component is [None] when the caller waits there, and
    [Some err] when the call has returned [err]. *)
Definition Put (key value : string) (g : Globals) : Globals * option (option error) :=
  let g := {| store := <[key := value]> (store g); logger := logger g |} in
  match WritePut (logger g) key value with
  | None => (g, None)
  | Some l => ({| store := store g; logger := l |}, Some None)
  end.

Definition Get (key : string) (g : Globals) : string * option error :=
  match store g !! key with
  | Some value => (value, None)
  | None => ("", Some ErrorNoSuchKey)
  end.

Definition Delete (key : string) (g : Globals) : Globals * option (option error) :=
  let g := {| store := delete key (store g); logger := logger g |} in
  match WriteDelete (logger g) key with
  | None => (g, None)
  | Some l => ({| store := store g; logger := l |}, Some None)
  end.

(** The [switch e.EventType] of the replay loop; an event of neither
    type leaves [err] as the loop guard found it, nil. *)
Definition dispatch (e : Event) (g : Globals) : Globals * option (option error) :=
  if EventType e =? EventDelete then Delete (Key e) g
  else if EventType e =? EventPut then Put (Key e) (Value e) g
  else (g, Some None).

(** The send a caller parked inside [dispatch e] is waiting on. *)
Definition resume (e : Event) (l : PostgresTransactionLogger)
  : option PostgresTransactionLogger :=
  if EventType e =? EventDelete then WriteDelete l (Key e)
  else WritePut l (Key e) (Value e).

(** What the [switch] does to the map of the store. *)
Definition replayed (m : gmap string string) (e : Event) : gmap string string :=
  if EventType e =? EventDelete then delete (Key e) m
  else if EventType e =? EventPut then <[Key e := Value e]> m
  else m.

End Store.

(** [main] after [initializeTransactionLog] has returned [err]: it panics
    on an error and serves requests otherwise. *)
Inductive process : Type :=
  | Serving
  | Crashed (msg : string).

Definition main (err : option error) : process :=
  match err with
  | Some _ => Crashed "cannot create logger"
  | None => Serving
  end.

(** ** [initializeTransactionLog]: the start-up replay

    The machine has two threads: the goroutine of [ReadEvents], reduced to
    the actions it still has to perform, and the replay loop.  The channel
    [outEvent] is unbuffered, so an event passes from one to the other in
    a single step; [outError] has room for one error.  A [select] with
    both cases ready takes either.

    The variable [logger] has the interface type [TransactionLogger];
    the machine runs it on the implementation that [db.go] gives, as its
    constructor leaves it, the channels nil until [Run].  The constructor
    the function calls first, [NewFileTransactionLogger], is in a file of
    the package other than the two at hand; the machine starts after
    it. *)

Module Startup.

(** Where the replay loop stands. *)
Inductive control : Type :=
  | Selecting (e : Event) (ok : bool) (err : option error)
      (* at the test [ok && err == nil] *)
  | Switching (e : Event) (ok : bool)
      (* [e, ok = <-events] done, at the switch *)
  | Parked (e : Event) (ok : bool)
      (* inside [Put] or [Delete], waiting on the send to [l.events] *)
  | Leaving (err : option error)
      (* loop left, at [logger.Run()] *)
  | Returned (err : option error).

Record state : Type := {
  globals : Globals;
  server : Database;
  reader : list action;
  outEvent : Chan.chan Event;
  outError : Chan.chan (option error);
  at_ : control
}.

Section Steps.

Context `{EventTypes}.

Inductive step : state → state → Prop :=
  | step_send_error s err rest ch :
      reader s = SendError err :: rest →
      Chan.send (Some (outError s)) (Some err) = Some ch →
      step s {| globals := globals s; server := server s; reader := rest;
                outEvent := outEvent s; outError := ch; at_ := at_ s |}
  | step_close_error s rest :
      reader s = CloseError :: rest →
      step s {| globals := globals s; server := server s; reader := rest;
                outEvent := outEvent s; outError := Chan.close (outError s);
                at_ := at_ s |}
  | step_close_event s rest :
      reader s = CloseEvent :: rest →
      step s {| globals := globals s; server := server s; reader := rest;
                outEvent := Chan.close (outEvent s); outError := outError s;
                at_ := at_ s |}
  | step_recv_error s e err ok ch :
      at_ s = Selecting e true None →
      Chan.recv None (outError s) = Some (err, ok, ch) →
      step s {| globals := globals s; server := server s; reader := reader s;
                outEvent := outEvent s; outError := ch;
                at_ := Selecting e ok err |}
  | step_recv_event s e0 e rest :
      at_ s = Selecting e0 true None →
      reader s = SendEvent e :: rest →
      step s {| globals := globals s; server := server s; reader := rest;
                outEvent := outEvent s; outError := outError s;
                at_ := Switching e true |}
  | step_recv_closed s e0 e ok ch :
      at_ s = Selecting e0 true None →
      Chan.recv Event_zero (outEvent s) = Some (e, ok, ch) →
      step s {| globals := globals s; server := server s; reader := reader s;
                outEvent := ch; outError := outError s;
                at_ := Switching e ok |}
  | step_applied s e ok g err :
      at_ s = Switching e ok →
      dispatch e (globals s) = (g, Some err) →
      step s {| globals := g; server := server s; reader := reader s;
                outEvent := outEvent s; outError := outError s;
                at_ := Selecting e ok err |}
  | step_parked s e ok g :
      at_ s = Switching e ok →
      dispatch e (globals s) = (g, None) →
      step s {| globals := g; server := server s; reader := reader s;
                outEvent := outEvent s; outError := outError s;
                at_ := Parked e ok |}
  | step_resumed s e ok l :
      at_ s = Parked e ok →
      resume e (logger (globals s)) = Some l →
      step s {| globals := {| store := store (globals s); logger := l |};
                server := server s; reader := reader s;
                outEvent := outEvent s; outError := outError s;
                at_ := Selecting e ok None |}
  | step_leave s e ok err :
      at_ s = Selecting e ok err →
      ok = false ∨ err ≠ None →
      step s {| globals := globals s; server := server s; reader := reader s;
                outEvent := outEvent s; outError := outError s;
                at_ := Leaving err |}
  | step_run s err :
      at_ s = Leaving err →
      step s {| globals := {| store := store (globals s);
                              logger := Run (logger (globals s)) |};
                server := server s; reader := reader s;
                outEvent := outEvent s; outError := outError s;
                at_ := Returned err |}.

(** The state in which the loop is entered: [ReadEvents] has made its
    channels and started its goroutine, and [e, ok := Event{}, true]. *)
Definition enter (g : Globals) (f : Faults) (srv : Database) : state :=
  let '(events, errors, (srv, script)) := ReadEvents f srv in
  {| globals := g; server := srv; reader := script;
     outEvent := events; outError := errors;
     at_ := Selecting Event_zero true None |}.

(** The write pipeline is active once [Run] has made the channels. *)
Definition active (s : state) : Prop :=
  events (logger (globals s)) ≠ None.

End Steps.

End Startup.

(** ** The pipeline at work

    After [Run] the machine has the request handlers, which call [Put]
    and [Delete], the writer goroutine of [Run], and whoever receives from
    the channel [Err()] hands out.  Every step carries a label, so that a
    property can speak of the calls made, of the appends that failed and
    of the errors received.  A call of [Put] or [Delete] is one step,
    taken when its send goes through; an [Exec] fails when the server
    rejects the statement or, at any time, by a failure of the
    connection. *)

Module Live.

(** Where the writer goroutine stands. *)
Inductive writer : Type :=
  | Ranging                     (* at [for e := range events] *)
  | Executing (e : Event)       (* at [l.db.Exec(query, ...)] *)
  | Reporting (err : error)     (* at [errors <- err] *)
  | Finished.                   (* [events] closed and drained *)

Record state : Type := {
  globals : Globals;
  server : Database;
  at_ : writer
}.

Inductive label : Type :=
  | CallPut (key value : string)
  | CallDelete (key : string)
  | Dequeue (e : Event)
  | Append (e : Event)
  | AppendFailed (e : Event) (err : error)
  | Report (err : error)
  | Drain (err : error)
  | Stop.

Definition with_events (l : PostgresTransactionLogger) (ch : Chan.chan Event)
  : PostgresTransactionLogger :=
  {| events := Some ch; errors := errors l; db := db l |}.

Definition with_errors (l : PostgresTransactionLogger) (ch : Chan.chan error)
  : PostgresTransactionLogger :=
  {| events := events l; errors := Some ch; db := db l |}.

Definition query : string :=
  "INSERT INTO " +:+ TABLE +:+ "
			(event_type, key, value)
			VALUES ($1, $2, $3)
		".

Section Steps.

Context `{EventTypes}.

Inductive step : state → label → state → Prop :=
  | step_put s key value g err :
      Put key value (globals s) = (g, Some err) →
      step s (CallPut key value)
           {| globals := g; server := server s; at_ := at_ s |}
  | step_delete s key g err :
      Delete key (globals s) = (g, Some err) →
      step s (CallDelete key)
           {| globals := g; server := server s; at_ := at_ s |}
  | step_dequeue s ch e ch' :
      at_ s = Ranging →
      events (logger (globals s)) = Some ch →
      Chan.recv Event_zero ch = Some (e, true, ch') →
      step s (Dequeue e)
           {| globals := {| store := store (globals s);
                            logger := with_events (logger (globals s)) ch' |};
              server := server s; at_ := Executing e |}
  | step_stop s ch e ch' :
      at_ s = Ranging →
      events (logger (globals s)) = Some ch →
      Chan.recv Event_zero ch = Some (e, false, ch') →
      step s Stop {| globals := globals s; server := server s; at_ := Finished |}
  | step_append s e srv :
      at_ s = Executing e →
      insert_event query (EventType e) (Key e) (Value e) (server s) = (srv, None) →
      step s (Append e) {| globals := globals s; server := srv; at_ := Ranging |}
  | step_append_rejected s e srv err :
      at_ s = Executing e →
      insert_event query (EventType e) (Key e) (Value e) (server s) = (srv, Some err) →
      step s (AppendFailed e err)
           {| globals := globals s; server := srv; at_ := Reporting err |}
  | step_append_fault s e err :
      at_ s = Executing e →
      step s (AppendFailed e err)
           {| globals := globals s; server := server s; at_ := Reporting err |}
  | step_report s err ch :
      at_ s = Reporting err →
      Chan.send (errors (logger (globals s))) err = Some ch →
      step s (Report err)
           {| globals := {| store := store (globals s);
                            logger := with_errors (logger (globals s)) ch |};
              server := server s; at_ := Ranging |}
  | step_drain s ch err ch' :
      errors (logger (globals s)) = Some ch →
      Chan.recv "" ch = Some (err, true, ch') →
      step s (Drain err)
           {| globals := {| store := store (globals s);
                            logger := with_errors (logger (globals s)) ch' |};
              server := server s; at_ := at_ s |}.

(** [run s t s']: the machine goes from [s] to [s'] through the steps
    labelled [t], oldest first. *)
Inductive run (s : state) : list label → state → Prop :=
  | run_nil : run s [] s
  | run_snoc t s' l s'' : run s t s' → step s' l s'' → run s (t ++ [l]) s''.

(** The state [Run] leaves behind. *)
Definition start (m : gmap string string) (l : PostgresTransactionLogger)
    (srv : Database) : state :=
  {| globals := {| store := m; logger := Run l |}; server := srv; at_ := Ranging |}.

End Steps.

(** The events waiting in the queue. *)
Definition queued (s : state) : list Event :=
  match events (logger (globals s)) with
  | Some ch => Chan.buf ch
  | None => []
  end.

(** The errors waiting in the channel [Err()] hands out. *)
Definition reported (s : state) : list error :=
  match errors (logger (globals s)) with
  | Some ch => Chan.buf ch
  | None => []
  end.

Definition is_call (l : label) : bool :=
  match l with CallPut _ _ | CallDelete _ => true | _ => false end.

Definition is_failure (l : label) : bool :=
  match l with AppendFailed _ _ => true | _ => false end.

Definition is_drain (l : label) : bool :=
  match l with Drain _ => true | _ => false end.

End Live.

(** ** Vocabulary of the statements *)

(** The values of the parameters at which the statements are exercised. *)
Definition sample_types : EventTypes :=
  {| EventDelete := 1; EventPut := 2;
     EventType_fits := λ v, ((0 <=? v) && (v <=? 255))%bool |}.

Section Vocabulary.

Context `{EventTypes}.

(** A row is valid when [Scan] accepts it; [decode] is the event it
    then yields. *)
Definition valid (r : Row) : bool :=
  match (Scan r Event_zero).2 with None => true | Some _ => false end.

Definition decode (r : Row) : Event := (Scan r Event_zero).1.

(** The result set the goroutine of [ReadEvents] walks when its query
    went through. *)
Definition fetched (f : Faults) (srv : Database) : Rows Row :=
  walk (order_by_sequence (default [] (relation srv))) (walk_fault f).

(** The walk fails at the row that heads [tail], or at its end when
    [tail] is empty. *)
Definition failing (tail : list Row) (rows_err : option error) : Prop :=
  match tail with
  | bad :: _ => valid bad = false
  | [] => rows_err ≠ None
  end.

End Vocabulary.

(** A database without the table, and one with the empty table. *)
Definition blank : Database := {| relation := None; serial := 1; journal := [] |}.

Definition fresh : Database := {| relation := Some []; serial := 1; journal := [] |}.

(** The connection breaks at the query: the probe of the constructor, the
    SELECT of [ReadEvents]. *)
Definition query_fails (err : error) : Faults :=
  {| open_fault := None; ping_fault := None; query_fault := Some err;
     walk_fault := None; exec_fault := None |}.

(** A log whose second row has no key. *)
Definition torn_log : Database :=
  {| relation := Some [ {| row_sequence := 1; row_event_type := Some 2;
                           row_key := Some "a"; row_value := Some "1" |};
                        {| row_sequence := 2; row_event_type := Some 2;
                           row_key := None; row_value := Some "2" |};
                        {| row_sequence := 3; row_event_type := Some 1;
                           row_key := Some "a"; row_value := Some "" |} ];
     serial := 4; journal := [] |}.

(** A logger as the constructor returns it, and the package variables
    before the replay. *)
Definition constructed : PostgresTransactionLogger :=
  {| events := None; errors := None;
     db := {| dataSource := "host=localhost dbname=kv user=kv password=kv" |} |}.

Definition initial : Globals := {| store := ∅; logger := constructed |}.

(** A log that holds one Put. *)
Definition one_put_log : Database :=
  {| relation := Some [ {| row_sequence := 1; row_event_type := Some 2;
                           row_key := Some "a"; row_value := Some "1" |} ];
     serial := 2; journal := [] |}.

(** The machine after a replay whose query failed: the error has been
    received and returned. *)
Definition failed_replay : Startup.state :=
  {| Startup.globals := {| store := ∅; logger := Run constructed |};
     Startup.server := fresh;
     Startup.reader := [CloseError; CloseEvent];
     Startup.outEvent := Chan.make Event 0;
     Startup.outError := Chan.make (option error) 1;
     Startup.at_ := Startup.Returned (Some "sql query error: driver: bad connection") |}.

Module StartupVocabulary.

Import Startup.

Section Vocabulary.

Context `{EventTypes}.

(** The goroutine of [ReadEvents] has nothing left to send. *)
Definition exhausted (s : state) : Prop :=
  sent_events (reader s) = [] ∧ sent_errors (reader s) = [].

(** No rule applies. *)
Definition stuck (s : state) : Prop := ∀ s', ¬ step s s'.

(** The channel of the logger is nil up to the return and made from
    then on. *)
Definition gated (s : state) : Prop :=
  match at_ s with
  | Returned _ => events (logger (globals s)) = Some (Chan.make Event 16)
  | _ => events (logger (globals s)) = None
  end.

Definition is_send (a : action) : bool :=
  match a with SendEvent _ | SendError _ => true | _ => false end.

(** How far the goroutine is, told by the closed flags of [outError]
    and [outEvent]: still sending, between its two closes, or done. *)
Definition winding (closed_error closed_event : bool) (rest : list action) : Prop :=
  (closed_error = false ∧ closed_event = false
   ∧ ∃ body, rest = body ++ [CloseError; CloseEvent] ∧ forallb is_send body = true)
  ∨ (closed_error = true ∧ closed_event = false ∧ rest = [CloseEvent])
  ∨ (closed_error = true ∧ closed_event = true ∧ rest = []).

(** The loop has received from a closed channel. *)
Definition observed (c : control) : Prop :=
  match c with
  | Selecting _ false _ | Switching _ false | Parked _ false
  | Leaving None | Returned None => True
  | _ => False
  end.

Definition coherent (s : state) : Prop :=
  winding (Chan.closed (outError s)) (Chan.closed (outEvent s)) (reader s)
  ∧ Chan.buf (outEvent s) = []
  ∧ (observed (at_ s) →
     Chan.closed (outError s) = true ∨ Chan.closed (outEvent s) = true).

(** The loop holds the error [err], has left on it, or has returned
    it. *)
Definition failing_with (e : Event) (ok : bool) (err : error) (s : state) : Prop :=
  at_ s = Selecting e ok (Some err) ∨ at_ s = Leaving (Some err)
  ∨ at_ s = Returned (Some err).

(** A bound on the steps left once the loop holds an error. *)
Definition budget (s : state) : nat :=
  (length (reader s)
   + match at_ s with Selecting _ _ _ => 2 | Leaving _ => 1 | _ => 0 end)%nat.

(** The property "the pipeline is activated only after a replay that
    met no error", for the executions from [init]. *)
Definition activation_requires_clean_replay (init : state) : Prop :=
  ∀ s, rtc step init s → active s → at_ s = Returned None.

End Vocabulary.

End StartupVocabulary.

(** The replay loop at the moment it has received the error of a query
    that failed. *)
Definition error_received : Startup.state :=
  {| Startup.globals := initial; Startup.server := fresh;
     Startup.reader := [CloseError; CloseEvent];
     Startup.outEvent := Chan.make Event 0;
     Startup.outError := Chan.make (option error) 1;
     Startup.at_ :=
       Startup.Selecting Event_zero true (Some "sql query error: driver: bad connection") |}.

Module LiveVocabulary.

Import Live.

(** A call of a store operation. *)
Inductive op : Type :=
  | OpPut (key value : string)
  | OpDelete (key : string).

(** What the operation does to a map, in the words of the
    specification: the last write of a key wins, a delete removes the
    key when it is there and does nothing otherwise. *)
Definition perform (m : gmap string string) (o : op) : gmap string string :=
  match o with
  | OpPut key value => <[key := value]> m
  | OpDelete key => delete key m
  end.

(** The calls of a run, oldest first. *)
Definition calls (t : list label) : list op :=
  omap (λ l, match l with
             | CallPut key value => Some (OpPut key value)
             | CallDelete key => Some (OpDelete key)
             | _ => None
             end) t.

Definition call_of (o : op) : label :=
  match o with
  | OpPut key value => CallPut key value
  | OpDelete key => CallDelete key
  end.

Definition faultless (t : list label) : Prop :=
  forallb (λ l, negb (is_failure l)) t = true.

Definition undrained (t : list label) : Prop :=
  forallb (λ l, negb (is_drain l)) t = true.

(** The step is the completion of an [Exec]. *)
Definition is_exec (l : label) : bool :=
  match l with Append _ | AppendFailed _ _ => true | _ => false end.

Definition unexecuted (t : list label) : Prop :=
  forallb (λ l, negb (is_exec l)) t = true.

(** The channel after a send. *)
Definition push {A : Type} (ch : Chan.chan A) (x : A) : Chan.chan A :=
  {| Chan.buf := Chan.buf ch ++ [x]; Chan.cap := Chan.cap ch;
     Chan.closed := Chan.closed ch |}.



(** The writer is idle and the queue is empty. *)
Definition quiescent (s : state) : Prop := at_ s = Ranging ∧ queued s = [].

(** The events submitted and not yet appended. *)
Definition in_flight (s : state) : list Event :=
  match at_ s with
  | Executing e => e :: queued s
  | _ => queued s
  end.

(** The rows the server makes of events appended one after the other,
    the first with the sequence number [first]. *)
Fixpoint rows_of (first : Z) (es : list Event) : list Row :=
  match es with
  | [] => []
  | e :: es' =>
      {| row_sequence := first; row_event_type := Some (EventType e);
         row_key := Some (Key e); row_value := Some (Value e) |}
      :: rows_of (first + 1) es'
  end.

Section Vocabulary.

Context `{EventTypes}.

Definition put_event (key value : string) : Event :=
  {| Sequence := 0; EventType := EventPut; Key := key; Value := value |}.

Definition delete_event (key : string) : Event :=
  {| Sequence := 0; EventType := EventDelete; Key := key; Value := "" |}.

Definition event_of (o : op) : Event :=
  match o with
  | OpPut key value => put_event key value
  | OpDelete key => delete_event key
  end.

(** The invariant of the runs without failed append from
    [start m0 l srv0], where the table of [srv0] holds [rows0]: the
    store is what the calls made of [m0], and the log is [rows0]
    followed by the rows of the events submitted, in the order of the
    calls, except those still in flight. *)
Definition logged (m0 : gmap string string) (srv0 : Database) (rows0 : list Row)
    (t : list label) (s : state) : Prop :=
  (at_ s = Ranging ∨ ∃ e, at_ s = Executing e)
  ∧ (∃ ch, events (logger (globals s)) = Some ch
           ∧ Chan.cap ch = 16%nat ∧ Chan.closed ch = false)
  ∧ store (globals s) = foldl perform m0 (calls t)
  ∧ ∃ done, event_of <$> calls t = done ++ in_flight s
            ∧ relation (server s) = Some (rows0 ++ rows_of (serial srv0) done)
            ∧ serial (server s) = serial srv0 + Z.of_nat (length done).

(** The channels are those [Run] made, and the writer is at work. *)
Definition wired (s : state) : Prop :=
  (∃ ch, events (logger (globals s)) = Some ch
         ∧ Chan.cap ch = 16%nat ∧ Chan.closed ch = false)
  ∧ (∃ ch, errors (logger (globals s)) = Some ch
           ∧ Chan.cap ch = 1%nat ∧ Chan.closed ch = false
           ∧ (length (Chan.buf ch) ≤ 1)%nat)
  ∧ at_ s ≠ Finished.

(** The property "every event in the queue gets its append attempted,
    whether or not the error channel is drained", for the executions
    from [init]. *)
Definition writer_never_halts (init : state) : Prop :=
  ∀ t s e, run init t s → e ∈ queued s →
           ∃ t' s', run s t' s' ∧ undrained t' ∧ at_ s' = Executing e.

(** The parameters are usable: the two constants differ, they are
    values of their type, and they fit the column. *)
Definition sound_types : Prop :=
  EventDelete ≠ EventPut
  ∧ EventType_fits EventDelete = true ∧ EventType_fits EventPut = true
  ∧ smallint EventDelete = true ∧ smallint EventPut = true.

End Vocabulary.

End LiveVocabulary.

(** The pipeline with sixteen events in its queue while the writer is in
    an [Exec]. *)
Definition waiting_event : Event :=
  {| Sequence := 0; EventType := 2; Key := "k"; Value := "v" |}.

Definition saturated : Live.state :=
  {| Live.globals :=
       {| store := {[ "k" := "v" ]};
          logger := {| events := Some {| Chan.buf := replicate 16 waiting_event;
                                         Chan.cap := 16; Chan.closed := false |};
                       errors := Some (Chan.make error 1);
                       db := db constructed |} |};
     Live.server := fresh;
     Live.at_ := Live.Executing waiting_event |}.

(** The labels of a run that leads there: a call, which the writer takes
    up, and sixteen more. *)
Definition seventeen_calls : list Live.label :=
  Live.CallPut "k" "v" :: Live.Dequeue waiting_event
  :: replicate 16 (Live.CallPut "k" "v").

(** The pipeline after two appends have failed and nobody has received
    from the error channel, with a third event in the queue. *)
Definition third_event : Event :=
  {| Sequence := 0; EventType := 2; Key := "c"; Value := "3" |}.

Definition clogged : Live.state :=
  {| Live.globals :=
       {| store := <["c" := "3"]> (<["b" := "2"]> (<["a" := "1"]> ∅));
          logger := {| events := Some {| Chan.buf := [third_event];
                                         Chan.cap := 16; Chan.closed := false |};
                       errors := Some {| Chan.buf := ["driver: bad connection"];
                                         Chan.cap := 1; Chan.closed := false |};
                       db := db constructed |} |};
     Live.server := fresh;
     Live.at_ := Live.Reporting "driver: bad connection" |}.

(** The labels of a run that leads there. *)
Definition two_failures : list Live.label :=
  [ Live.CallPut "a" "1"; Live.CallPut "b" "2"; Live.CallPut "c" "3";
    Live.Dequeue {| Sequence := 0; EventType := 2; Key := "a"; Value := "1" |};
    Live.AppendFailed {| Sequence := 0; EventType := 2; Key := "a"; Value := "1" |}
      "driver: bad connection";
    Live.Report "driver: bad connection";
    Live.Dequeue {| Sequence := 0; EventType := 2; Key := "b"; Value := "2" |};
    Live.AppendFailed {| Sequence := 0; EventType := 2; Key := "b"; Value := "2" |}
      "driver: bad connection" ].

(** ** [main.go]: the request handlers

    Of [net/http] the handlers use [WriteHeader], [Write] and
    [http.Error]; a response is the status line, once written, and the
    body written so far (the header fields are left out).  Of the request
    they use the variable [key] of the route and the body as [io.ReadAll]
    reads it. *)

Module Http.

Record ResponseWriter : Type := {
  written : option nat;
  content : string
}.

Definition StatusOK : nat := 200.
Definition StatusCreated : nat := 201.
Definition StatusNotFound : nat := 404.
Definition StatusInternalServerError : nat := 500.

(** The response a handler is given. *)
Definition unwritten : ResponseWriter := {| written := None; content := "" |}.

(** [w.WriteHeader(code)]: the status line is written once; a later call
    is reported as superfluous and changes nothing. *)
Definition WriteHeader (code : nat) (w : ResponseWriter) : ResponseWriter :=
  match written w with
  | Some _ => w
  | None => {| written := Some code; content := content w |}
  end.

(** [w.Write(data)]: writes the status line 200 first if none was
    written. *)
Definition Write (data : string) (w : ResponseWriter) : ResponseWriter :=
  let w := WriteHeader StatusOK w in
  {| written := written w; content := content w +:+ data |}.

(** [http.Error(w, error, code)]: the status line, then the message and
    a line feed. *)
Definition Error (w : ResponseWriter) (message : string) (code : nat) : ResponseWriter :=
  Write (message +:+ String "010" EmptyString) (WriteHeader code w).

(** What the client receives: the server writes the status line 200 when
    the handler returns without having written one. *)
Definition served (w : ResponseWriter) : nat * string :=
  (default StatusOK (written w), content w).

Record Request : Type := {
  vars_key : string;             (* mux.Vars(r)["key"] *)
  read_body : string + error     (* io.ReadAll(r.Body) *)
}.

(** [errors.Is(err, ErrorNoSuchKey)], on errors that are their message. *)
Definition is_ErrorNoSuchKey (err : error) : bool := String.eqb err ErrorNoSuchKey.

Definition keyValueGetHandler (w : ResponseWriter) (r : Request) (g : Globals)
  : ResponseWriter :=
  let key := vars_key r in
  let '(value, err) := Get key g in
  match err with
  | Some err =>
      let w := if is_ErrorNoSuchKey err then Error w err StatusNotFound else w in
      Error w err StatusInternalServerError
  | None => Write value w
  end.

Section Handlers.

Context `{EventTypes}.

(** The second component is [None] when the handler waits inside [Put]. *)
Definition keyValuePutHandler (w : ResponseWriter) (r : Request) (g : Globals)
  : Globals * option ResponseWriter :=
  let key := vars_key r in
  match read_body r with
  | inr err => (g, Some (Error w err StatusInternalServerError))
  | inl value =>
      match Put key value g with
      | (g, None) => (g, None)
      | (g, Some (Some err)) => (g, Some (Error w err StatusInternalServerError))
      | (g, Some None) => (g, Some (WriteHeader StatusCreated w))
      end
  end.

Definition keyValueDeleteHandler (w : ResponseWriter) (r : Request) (g : Globals)
  : Globals * option ResponseWriter :=
  let key := vars_key r in
  match Delete key g with
  | (g, None) => (g, None)
  | (g, Some (Some err)) => (g, Some (Error w err StatusInternalServerError))
  | (g, Some None) => (g, Some w)
  end.

End Handlers.

End Http.

(** The connection breaks while the rows of a query are walked, after
    [n] of them. *)
Definition walk_fails (n : nat) (err : error) : Faults :=
  {| open_fault := None; ping_fault := None; query_fault := None;
     walk_fault := Some (n, err); exec_fault := None |}.

(** A database with a log of two rows, the later one stored first. *)
Definition shuffled_log : Database :=
  {| relation := Some [ {| row_sequence := 2; row_event_type := Some 1;
                           row_key := Some "a"; row_value := Some "" |};
                        {| row_sequence := 1; row_event_type := Some 2;
                           row_key := Some "a"; row_value := Some "1" |} ];
     serial := 3; journal := [] |}.

Module ReplayVocabulary.

Import Startup.

Section Vocabulary.

Context `{EventTypes}.

(** The [switch] of the loop has a case for the event. *)
Definition applies (e : Event) : bool :=
  ((EventType e =? EventDelete) || (EventType e =? EventPut))%bool.

(** The loop has only met events the [switch] has no case for, and so
    will it: the store is still [m] and no call is waiting. *)
Definition calm (m : gmap string string) (s : state) : Prop :=
  store (globals s) = m
  ∧ forallb (λ e, negb (applies e)) (sent_events (reader s)) = true
  ∧ (∀ e ok, at_ s = Switching e ok → applies e = false)
  ∧ (∀ e ok, at_ s ≠ Parked e ok).

End Vocabulary.

(** The error channel against the goroutine: room for the one error the
    goroutine may still send, and no nil error in it. *)
Definition tidy (s : state) : Prop :=
  Chan.cap (outError s) = 1%nat
  ∧ Forall is_Some (Chan.buf (outError s))
  ∧ (length (Chan.buf (outError s)) + length (sent_errors (reader s)) ≤ 1)%nat.

(** How far the loop is from its return, and a weight of the whole
    machine that every step lowers. *)
Definition rank (c : control) : nat :=
  match c with
  | Switching _ true => 12
  | Parked _ true => 11
  | Selecting _ true None => 10
  | Switching _ false => 9
  | Parked _ false => 8
  | Selecting _ _ _ => 7
  | Leaving _ => 6
  | Returned _ => 5
  end.

Definition weight (s : state) : nat :=
  (3 * length (reader s) + 3 * length (Chan.buf (outEvent s))
   + length (Chan.buf (outError s)) + rank (at_ s))%nat.

(** The error the loop holds, if any. *)
Definition held (c : control) : option error :=
  match c with
  | Selecting _ _ err | Leaving err | Returned err => err
  | _ => None
  end.

(** No error was sent, none is to come and none is held. *)
Definition clean (s : state) : Prop :=
  sent_errors (reader s) = [] ∧ Chan.buf (outError s) = [] ∧ held (at_ s) = None.

End ReplayVocabulary.

(** * Properties *)

(** ** Construction *)

Lemma createTable_dangling_comma : dangling_comma " " (createCommand TABLE) = true.
Proof. reflexivity. Qed.

(** When the table is there, construction succeeds and sends the probe
    and nothing else. *)
Lemma NewPostgresTransactionLogger_table_present config srv rows :
  relation srv = Some rows →
  ∃ l srv', NewPostgresTransactionLogger config no_faults srv = (srv', Returns (Some l, None))
            ∧ relation srv' = Some rows
            ∧ journal srv' = journal srv ++ ["SELECT to_regclass('public.transactions');"].
Proof.
  intros Hrel. unfold NewPostgresTransactionLogger, verifyTableExists; simpl.
  rewrite Hrel; simpl. eauto.
Qed.

(** C4 (the code departs from it): on a database without the table,
    construction sends the CREATE TABLE statement of [createTable], whose
    column list ends in a comma; the server rejects it, the table is not
    created and construction returns the error. *)
Theorem NewPostgresTransactionLogger_table_absent config :
  let '(srv, outcome) := NewPostgresTransactionLogger config no_faults blank in
  outcome = Returns (None, Some "failed to create table: pq: syntax error at or near )")
  ∧ relation srv = None
  ∧ journal srv = ["SELECT to_regclass('public.transactions');"; createCommand TABLE].
Proof. by vm_compute. Qed.

(** A failed ping is returned as an error. *)
Lemma NewPostgresTransactionLogger_ping_fails config f srv err :
  open_fault f = None → ping_fault f = Some err →
  NewPostgresTransactionLogger config f srv
  = (srv, Returns (None, Some (Errorf "failed to open db connection" err))).
Proof. intros Ho Hp. unfold NewPostgresTransactionLogger. by rewrite Ho, Hp. Qed.

(** C5 (the code departs from it): when the query of the probe fails,
    [verifyTableExists] has already deferred [rows.Close()] on the nil
    result, so the constructor panics instead of returning the error. *)
Theorem NewPostgresTransactionLogger_probe_query_fails config srv err :
  NewPostgresTransactionLogger config (query_fails err) srv
  = (srv, Panics "invalid memory address or nil pointer dereference").
Proof. reflexivity. Qed.

(** ** The stream of [ReadEvents] *)

Section Stream.

Context `{EventTypes}.

(** A scan that succeeds has assigned all four fields: its outcome does
    not depend on what the variable held. *)
Lemma Scan_valid r e : valid r = true → Scan r e = (decode r, None).
Proof.
  unfold valid, decode, Scan.
  destruct (row_sequence r <? 0); [done|].
  destruct (row_event_type r) as [t|]; [|done].
  destruct (EventType_fits t); [|done].
  destruct (row_key r), (row_value r); simpl; done.
Qed.

Lemma Scan_invalid r e : valid r = false → ∃ e' err, Scan r e = (e', Some err).
Proof.
  unfold valid, Scan.
  destruct (row_sequence r <? 0); [eauto|].
  destruct (row_event_type r) as [t|]; [|eauto].
  destruct (EventType_fits t); [|simpl; eauto].
  destruct (row_key r), (row_value r); simpl; eauto; done.
Qed.

(** The error of a scan that fails does not depend on it either. *)
Lemma Scan_error r e e' : (Scan r e).2 = (Scan r e').2.
Proof.
  unfold Scan.
  destruct (row_sequence r <? 0); [done|].
  destruct (row_event_type r) as [t|]; [|done].
  destruct (EventType_fits t); [|done].
  destruct (row_key r), (row_value r); simpl; done.
Qed.

Lemma stream_variable cursor rows_err e e' :
  stream cursor rows_err e = stream cursor rows_err e'.
Proof.
  revert e e'. induction cursor as [|r cursor IH]; intros e e'; [done|].
  simpl. pose proof (Scan_error r e e') as Herr.
  destruct (valid r) eqn:Hr.
  - by rewrite !(Scan_valid r _ Hr).
  - destruct (Scan_invalid r e Hr) as (e1 & err1 & H1).
    destruct (Scan_invalid r e' Hr) as (e2 & err2 & H2).
    rewrite H1, H2 in Herr |- *. simpl in Herr. by simplify_eq.
Qed.

Lemma stream_valid_prefix good tail rows_err e :
  forallb valid good = true →
  stream (good ++ tail) rows_err e
  = (SendEvent ∘ decode <$> good) ++ stream tail rows_err e.
Proof.
  revert e. induction good as [|r good IH]; intros e Hgood; [done|].
  simpl in Hgood. apply andb_true_iff in Hgood as [Hr Hgood].
  simpl. rewrite (Scan_valid r e Hr). rewrite (IH _ Hgood).
  simpl. f_equal. f_equal. apply stream_variable.
Qed.

Lemma stream_failing tail rows_err e :
  failing tail rows_err → ∃ err, stream tail rows_err e = [SendError err].
Proof.
  destruct tail as [|bad rest]; simpl.
  - destruct rows_err; [eauto|done].
  - intros Hbad. destruct (Scan_invalid bad e Hbad) as (e' & err & ->). eauto.
Qed.

Lemma sent_events_app s1 s2 : sent_events (s1 ++ s2) = sent_events s1 ++ sent_events s2.
Proof. apply omap_app. Qed.

Lemma sent_errors_app s1 s2 : sent_errors (s1 ++ s2) = sent_errors s1 ++ sent_errors s2.
Proof. apply omap_app. Qed.

Lemma sent_events_SendEvent es : sent_events (SendEvent <$> es) = es.
Proof. induction es as [|e es IH]; [done|]. simpl. unfold sent_events; simpl. by f_equal. Qed.

Lemma sent_errors_SendEvent es : sent_errors (SendEvent <$> es) = [].
Proof. induction es as [|e es IH]; [done|]. simpl. unfold sent_errors; simpl. done. Qed.

(** What the goroutine does when its query goes through. *)
Lemma ReadEvents_goroutine_fetched f srv rows :
  query_fault f = None → relation srv = Some rows →
  (ReadEvents_goroutine f srv).2
  = stream (cursor (fetched f srv)) (rows_err (fetched f srv)) Event_zero
    ++ [CloseError; CloseEvent].
Proof.
  intros Hq Hrel. unfold ReadEvents_goroutine, fetched, select_events.
  rewrite Hq. simpl. by rewrite Hrel.
Qed.

(** C6: when the walk of the result set fails, at a row [Scan] rejects
    or by an error of the iteration, the goroutine has sent the events
    of all the rows before that point (each send on the unbuffered
    channel completed), then sends one error, and closes both channels
    without sending anything else. *)
Theorem ReadEvents_failure f srv good tail :
  query_fault f = None →
  is_Some (relation srv) →
  cursor (fetched f srv) = good ++ tail →
  forallb valid good = true →
  failing tail (rows_err (fetched f srv)) →
  ∃ err,
    (ReadEvents_goroutine f srv).2
    = (SendEvent <$> (decode <$> good)) ++ [SendError err; CloseError; CloseEvent]
    ∧ sent_events (ReadEvents_goroutine f srv).2 = decode <$> good
    ∧ sent_errors (ReadEvents_goroutine f srv).2 = [err].
Proof.
  intros Hq [rows Hrel] Hcur Hgood Hfail.
  rewrite (ReadEvents_goroutine_fetched f srv rows Hq Hrel), Hcur.
  rewrite (stream_valid_prefix _ _ _ _ Hgood).
  destruct (stream_failing tail (rows_err (fetched f srv)) Event_zero Hfail)
    as [err ->].
  exists err. rewrite <- list_fmap_compose, <- app_assoc. split; [done|].
  rewrite sent_events_app, sent_errors_app, list_fmap_compose.
  rewrite sent_events_SendEvent, sent_errors_SendEvent.
  split; [by rewrite app_nil_r | done].
Qed.

End Stream.

Lemma ReadEvents_failure_witness :
  ∃ err,
    (@ReadEvents_goroutine sample_types no_faults torn_log).2
    = [SendEvent {| Sequence := 1; EventType := 2; Key := "a"; Value := "1" |};
       SendError err; CloseError; CloseEvent]
    ∧ sent_events (@ReadEvents_goroutine sample_types no_faults torn_log).2
      = [{| Sequence := 1; EventType := 2; Key := "a"; Value := "1" |}]
    ∧ sent_errors (@ReadEvents_goroutine sample_types no_faults torn_log).2 = [err].
Proof.
  apply (@ReadEvents_failure sample_types no_faults torn_log
           [ {| row_sequence := 1; row_event_type := Some 2;
                row_key := Some "a"; row_value := Some "1" |} ]
           [ {| row_sequence := 2; row_event_type := Some 2;
                row_key := None; row_value := Some "2" |};
             {| row_sequence := 3; row_event_type := Some 1;
                row_key := Some "a"; row_value := Some "" |} ]).
  - reflexivity.
  - simpl. eauto.
  - reflexivity.
  - reflexivity.
  - reflexivity.
Defined.

(** ** The start-up replay *)

Module StartupFacts.

Import Startup StartupVocabulary.

Section Facts.

Context `{EventTypes}.

Lemma dispatch_store e g : store (dispatch e g).1 = replayed (store g) e.
Proof.
  unfold dispatch, replayed, Delete, Put.
  destruct (EventType e =? EventDelete).
  - by destruct (WriteDelete _ _).
  - destruct (EventType e =? EventPut); [|done].
    by destruct (WritePut _ _ _).
Qed.

(** [Put] and [Delete] never return an error. *)
Lemma dispatch_nil e g g' err : dispatch e g = (g', Some err) → err = None.
Proof.
  unfold dispatch, Delete, Put.
  destruct (EventType e =? EventDelete).
  - destruct (WriteDelete _ _); by intros [= <- <-].
  - destruct (EventType e =? EventPut); [|by intros [= <- <-]].
    destruct (WritePut _ _ _); by intros [= <- <-].
Qed.

(** Before [Run] the channel of the logger is nil: a Put or a Delete
    updates the store and then waits on its send. *)
Lemma dispatch_parks e g :
  events (logger g) = None →
  EventType e = EventDelete ∨ EventType e = EventPut →
  dispatch e g = ({| store := replayed (store g) e; logger := logger g |}, None).
Proof.
  intros Hnil Htype. unfold dispatch, replayed, Delete, Put, WriteDelete, WritePut.
  simpl. rewrite Hnil. simpl.
  destruct (EventType e =? EventDelete) eqn:Hd; [done|].
  destruct (EventType e =? EventPut) eqn:Hp; [done|].
  apply Z.eqb_neq in Hd, Hp. by destruct Htype.
Qed.

Lemma dispatch_logger e g :
  events (logger g) = None → events (logger (dispatch e g).1) = None.
Proof.
  intros Hnil. unfold dispatch, Delete, Put, WriteDelete, WritePut. simpl.
  rewrite Hnil. simpl.
  destruct (EventType e =? EventDelete); [done|].
  by destruct (EventType e =? EventPut).
Qed.

Lemma resume_parks e l : events l = None → resume e l = None.
Proof.
  intros Hnil. unfold resume, WriteDelete, WritePut. rewrite Hnil. simpl.
  by destruct (EventType e =? EventDelete).
Qed.

(** No step touches the server, and only [Run] touches the channel of
    the logger. *)
Lemma step_server s s' : step s s' → server s' = server s.
Proof. by destruct 1. Qed.

Lemma steps_server s s' : rtc step s s' → server s' = server s.
Proof.
  induction 1 as [|s1 s2 s3 Hstep _ IH]; [done|].
  by rewrite IH, (step_server _ _ Hstep).
Qed.

Lemma step_gated s s' : step s s' → gated s → gated s'.
Proof.
  unfold gated. destruct 1 as [s ? ? ? Hr|s ? Hr|s ? Hr|s ? ? ? ? Hat|s ? ? ? Hat Hr
                              |s ? ? ? ? Hat|s e ok g err Hat Hd|s e ok g Hat Hd
                              |s e ok l Hat Hres|s ? ? ? Hat|s ? Hat];
    simpl; try rewrite Hat; try done.
  - (* applied *)
    intros Hnil. apply (f_equal fst) in Hd. simpl in Hd. subst g.
    by apply dispatch_logger.
  - (* parked *)
    intros Hnil. apply (f_equal fst) in Hd. simpl in Hd. subst g.
    by apply dispatch_logger.
  - (* resumed *)
    intros Hnil. by rewrite (resume_parks _ _ Hnil) in Hres.
Qed.

Lemma steps_gated s s' : rtc step s s' → gated s → gated s'.
Proof. induction 1; eauto using step_gated. Qed.

Lemma enter_gated g f srv : events (logger g) = None → gated (enter g f srv).
Proof. unfold enter, ReadEvents. by destruct (ReadEvents_goroutine f srv). Qed.

Lemma gated_active s : gated s → active s ↔ ∃ err, at_ s = Returned err.
Proof.
  unfold gated, active. destruct (at_ s); intros ->; split; try done;
    try (by intros [? ?]); eauto.
Qed.

(** *** The goroutine against its channels *)

Lemma stream_sends cursor rows_err e : forallb is_send (stream cursor rows_err e) = true.
Proof.
  revert e. induction cursor as [|r cursor IH]; intros e; simpl.
  - by destruct rows_err.
  - destruct (Scan r e) as [e' [err|]]; simpl; [done|apply IH].
Qed.

Lemma ReadEvents_goroutine_sends f srv :
  ∃ body, (ReadEvents_goroutine f srv).2 = body ++ [CloseError; CloseEvent]
          ∧ forallb is_send body = true.
Proof.
  unfold ReadEvents_goroutine. destruct (query_fault f) as [err|].
  { by exists [SendError (Errorf "sql query error" err)]. }
  unfold select_events. simpl. destruct (relation srv) as [rows|].
  - eexists. split; [reflexivity|]. apply stream_sends.
  - by exists [SendError (Errorf "sql query error" "pq: relation does not exist")].
Qed.

Lemma winding_send ce cv a rest :
  is_send a = true → winding ce cv (a :: rest) → winding ce cv rest.
Proof.
  intros Ha [(-> & -> & body & Hb & Hs)|[(_ & _ & Hr)|(_ & _ & Hr)]].
  - left. repeat split. destruct body as [|b body]; simplify_eq/=.
    apply andb_true_iff in Hs as [_ Hs]. eauto.
  - by simplify_eq/=.
  - done.
Qed.

Lemma winding_close_error ce cv rest :
  winding ce cv (CloseError :: rest) → ce = false ∧ winding true cv rest.
Proof.
  intros [(-> & -> & body & Hb & Hs)|[(_ & _ & Hr)|(_ & _ & Hr)]]; [|done..].
  destruct body as [|b body]; simplify_eq/=.
  split; [done|]. right. left. done.
Qed.

Lemma winding_close_event ce cv rest :
  winding ce cv (CloseEvent :: rest) → winding ce true rest.
Proof.
  intros [(-> & -> & body & Hb & Hs)|[(-> & _ & Hr)|(_ & _ & Hr)]]; [| |done].
  - destruct body as [|b body]; simplify_eq/=.
  - simplify_eq. right. right. done.
Qed.

Lemma winding_exhausted ce cv rest :
  winding ce cv rest → ce = true ∨ cv = true →
  sent_events rest = [] ∧ sent_errors rest = [].
Proof.
  intros [(-> & -> & _)|[(_ & _ & ->)|(_ & _ & ->)]]; [by intros [?|?]|done..].
Qed.

Lemma recv_closed {A} (zero x : A) ok ch ch' :
  Chan.recv zero ch = Some (x, ok, ch') →
  Chan.closed ch' = Chan.closed ch ∧ (ok = false → Chan.closed ch = true).
Proof.
  unfold Chan.recv. destruct (Chan.buf ch).
  - destruct (Chan.closed ch) eqn:Hc; [|done]. by intros [= <- <- <-].
  - by intros [= <- <- <-].
Qed.

Lemma send_closed {A} (x : A) ch ch' :
  Chan.send (Some ch) x = Some ch' → Chan.closed ch' = Chan.closed ch.
Proof. simpl. destruct (_ <? _)%nat; [|done]. by intros [= <-]. Qed.

Lemma step_coherent s s' : step s s' → coherent s → coherent s'.
Proof.
  unfold coherent.
  destruct 1 as [s err rest ch Hr Hs|s rest Hr|s rest Hr|s e err ok ch Hat Hrecv
                |s e0 e rest Hat Hr|s e0 e ok ch Hat Hrecv|s e ok g err Hat Hd
                |s e ok g Hat Hd|s e ok l Hat Hres|s e ok err Hat Hleave|s err Hat];
    simpl; rewrite ?Hat; simpl; intros (Hw & Hbuf & Hobs).
  - rewrite Hr in Hw. rewrite (send_closed _ _ _ Hs).
    split_and!; [|done..]. by eapply winding_send; [|exact Hw].
  - rewrite Hr in Hw. apply winding_close_error in Hw as [_ Hw].
    split_and!; [done..|]. by left.
  - rewrite Hr in Hw. apply winding_close_event in Hw.
    split_and!; [done..|]. by right.
  - destruct (recv_closed _ _ _ _ _ Hrecv) as [-> Hok].
    split_and!; [done..|]. destruct ok; [done|]. intros _. left. by apply Hok.
  - rewrite Hr in Hw. split_and!; [|done..]. by eapply winding_send; [|exact Hw].
  - destruct (recv_closed _ _ _ _ _ Hrecv) as [Hc Hok]. rewrite Hc.
    unfold Chan.recv in Hrecv. rewrite Hbuf in Hrecv.
    destruct (Chan.closed (outEvent s)) eqn:Hcv; [|done]. simplify_eq.
    split_and!; [done..|]. intros _. by right.
  - split_and!; [done..|]. by destruct ok.
  - split_and!; [done..|]. by destruct ok.
  - split_and!; [done..|]. by destruct ok.
  - split_and!; [done..|]. destruct err; [done|]. intros _.
    destruct Hleave as [->|?]; [by apply Hobs|done].
  - split_and!; [done..|]. by destruct err.
Qed.

Lemma steps_coherent s s' : rtc step s s' → coherent s → coherent s'.
Proof. induction 1; eauto using step_coherent. Qed.

Lemma enter_coherent g f srv : coherent (enter g f srv).
Proof.
  unfold enter, ReadEvents, coherent.
  destruct (ReadEvents_goroutine_sends f srv) as (body & Hb & Hs).
  destruct (ReadEvents_goroutine f srv) as [srv' script]. simpl in *. subst.
  repeat split; [|done..]. left. eauto.
Qed.

(** C3 (as amended): [Run] is called when the loop has been left and
    at no other moment, so the pipeline is active exactly from the
    return on.  The loop is left without an error only once a receive
    has found a channel closed, when the goroutine of [ReadEvents] has
    nothing left to send; it is also left on an error, and [Run] is
    called all the same before the error is returned. *)
Theorem Run_after_the_loop g f srv s :
  events (logger g) = None →
  rtc step (enter g f srv) s →
  (active s ↔ ∃ err, at_ s = Returned err)
  ∧ (at_ s = Leaving None ∨ at_ s = Returned None → exhausted s)
  ∧ (∀ err, at_ s = Leaving err →
     ∃ s', step s s' ∧ at_ s' = Returned err ∧ active s').
Proof.
  intros Hnil Hsteps.
  pose proof (steps_gated _ _ Hsteps (enter_gated g f srv Hnil)) as Hg.
  pose proof (steps_coherent _ _ Hsteps (enter_coherent g f srv)) as (Hw & _ & Hobs).
  split; [by apply gated_active|]. split.
  - intros Hat. apply (winding_exhausted _ _ _ Hw), Hobs.
    by destruct Hat as [-> | ->].
  - intros err Hat. eexists. split; [by apply step_run|]. by split.
Qed.

(** *** A log that starts with a Put or a Delete *)

Lemma replay_parks g f srv e rest s :
  events (logger g) = None →
  (ReadEvents_goroutine f srv).2 = SendEvent e :: rest →
  EventType e = EventDelete ∨ EventType e = EventPut →
  rtc step (enter g f srv) s →
  (at_ s = Selecting Event_zero true None ∧ store (globals s) = store g
   ∧ reader s = SendEvent e :: rest
   ∧ outError s = Chan.make (option error) 1 ∧ outEvent s = Chan.make Event 0)
  ∨ (at_ s = Switching e true ∧ store (globals s) = store g)
  ∨ (at_ s = Parked e true ∧ store (globals s) = replayed (store g) e).
Proof.
  intros Hnil Hscript Htype. revert s. apply rtc_ind_r.
  { left. unfold enter, ReadEvents. destruct (ReadEvents_goroutine f srv); simpl in *.
    by subst. }
  intros s s' Hsteps Hstep Hcase.
  pose proof (steps_gated _ _ Hsteps (enter_gated g f srv Hnil)) as Hg.
  unfold gated in Hg.
  destruct Hcase as [(Hat & Hst & Hr & Herr & Hev)|[(Hat & Hst)|(Hat & Hst)]];
    rewrite Hat in Hg;
    inversion Hstep as [? ? ? ? Hr' Hs|? ? Hr'|? ? Hr'|? ? ? ? ? Hat' Hrecv
                        |? ? ? ? Hat' Hr'|? ? ? ? ? Hat' Hrecv|? ? ? ? ? Hat' Hd
                        |? ? ? ? Hat' Hd|? ? ? ? Hat' Hres|? ? ? ? Hat' Hleave|? ? Hat'];
    subst; simpl; try congruence.
  - by rewrite Herr in Hrecv.
  - right. left. split; [|done]. congruence.
  - by rewrite Hev in Hrecv.
  - rewrite Hat in Hat'. simplify_eq. by destruct Hleave.
  - right. by left.
  - right. by left.
  - right. by left.
  - rewrite Hat in Hat'. simplify_eq.
    by rewrite (dispatch_parks _ _ Hg Htype) in Hd.
  - rewrite Hat in Hat'. simplify_eq.
    rewrite (dispatch_parks _ _ Hg Htype) in Hd. simplify_eq. simpl.
    right. right. by rewrite Hst.
  - right. by right.
  - right. by right.
  - right. by right.
  - by rewrite (resume_parks _ _ Hg) in Hres.
Qed.

(** A caller parked while the channel of the logger is nil stays
    parked; once the goroutine is done nothing moves any more. *)
Lemma parked_stuck s e ok :
  at_ s = Parked e ok → reader s = [] → events (logger (globals s)) = None →
  stuck s.
Proof.
  intros Hat Hr Hnil s' Hstep.
  destruct Hstep as [s ? ? ? Hr'|s ? Hr'|s ? Hr'|s ? ? ? ? Hat'|s ? ? ? Hat' Hr'
                    |s ? ? ? ? Hat'|s ? ? ? ? Hat'|s ? ? ? Hat'
                    |s ? ? ? Hat' Hres|s ? ? ? Hat'|s ? Hat']; try congruence.
  rewrite Hat in Hat'. simplify_eq. by rewrite (resume_parks _ _ Hnil) in Hres.
Qed.

(** *** An error received by the loop *)

Lemma step_failing e ok err s s' :
  step s s' → failing_with e ok err s →
  failing_with e ok err s' ∧ store (globals s') = store (globals s)
  ∧ (budget s' < budget s)%nat.
Proof.
  unfold failing_with, budget.
  intros Hstep Hcase.
  inversion Hstep as [? ? ? ? Hr' Hs|? ? Hr'|? ? Hr'|? ? ? ? ? Hat' Hrecv
                      |? ? ? ? Hat' Hr'|? ? ? ? ? Hat' Hrecv|? ? ? ? ? Hat' Hd
                      |? ? ? ? Hat' Hd|? ? ? ? Hat' Hres|? ? ? ? Hat' Hleave|? ? Hat'];
    subst; simpl; try rewrite Hr'; simpl;
    try (destruct Hcase as [Hat|[Hat|Hat]]; rewrite Hat in *; simplify_eq);
    try (split_and!; [by eauto|done|lia]).
  all: split_and!; [by eauto|done|simpl; lia].
Qed.

Lemma steps_failing e ok err s s' n :
  nsteps step n s s' → failing_with e ok err s →
  failing_with e ok err s' ∧ store (globals s') = store (globals s)
  ∧ (n + budget s' ≤ budget s)%nat.
Proof.
  induction 1 as [|n s1 s2 s3 Hstep _ IH]; intros Hcase; [by split_and!|].
  destruct (step_failing _ _ _ _ _ Hstep Hcase) as (Hcase2 & Hst2 & Hlt).
  destruct (IH Hcase2) as (Hcase3 & Hst3 & Hle).
  split_and!; [done|congruence|lia].
Qed.

(** C7: once the loop holds an error, received from the error channel
    or returned by [Put] or [Delete], nothing is applied to the store
    any more: the loop is left, [initializeTransactionLog] returns the
    error after at most as many steps as the goroutine has actions
    left plus two, and [main] panics on it instead of serving. *)
Theorem replay_error_is_fatal s e ok err :
  at_ s = Selecting e ok (Some err) →
  (∀ n s', nsteps step n s s' →
     failing_with e ok err s' ∧ store (globals s') = store (globals s)
     ∧ (n ≤ length (reader s) + 2)%nat)
  ∧ (∀ s', rtc step s s' → stuck s' → at_ s' = Returned (Some err))
  ∧ (∃ s', rtc step s s' ∧ at_ s' = Returned (Some err))
  ∧ main (Some err) = Crashed "cannot create logger".
Proof.
  intros Hat.
  assert (failing_with e ok err s) as Hcase by by left.
  split_and!; [| | |done].
  - intros n s' Hsteps.
    destruct (steps_failing _ _ _ _ _ _ Hsteps Hcase) as (? & ? & Hle).
    split_and!; [done..|]. unfold budget in Hle. rewrite Hat in Hle. lia.
  - intros s' [n Hsteps]%rtc_nsteps Hstuck.
    destruct (steps_failing _ _ _ _ _ _ Hsteps Hcase) as ([Hat'|[Hat'|Hat']] & _).
    + exfalso. eapply Hstuck, step_leave; [done|]. by right.
    + exfalso. by eapply Hstuck, step_run.
    + done.
  - eexists. split.
    + eapply rtc_l; [eapply step_leave; [exact Hat|by right]|].
      eapply rtc_l; [by eapply step_run|]. apply rtc_refl.
    + done.
Qed.

End Facts.

Lemma replay_error_is_fatal_witness :
  (∀ n s', nsteps (@step sample_types) n error_received s' →
     failing_with Event_zero true "sql query error: driver: bad connection" s'
     ∧ store (globals s') = store (globals error_received)
     ∧ (n ≤ length (reader error_received) + 2)%nat)
  ∧ (∀ s', rtc (@step sample_types) error_received s' → @stuck sample_types s' →
       at_ s' = Returned (Some "sql query error: driver: bad connection"))
  ∧ (∃ s', rtc (@step sample_types) error_received s'
           ∧ at_ s' = Returned (Some "sql query error: driver: bad connection"))
  ∧ main (Some "sql query error: driver: bad connection") = Crashed "cannot create logger".
Proof.
  apply (@replay_error_is_fatal sample_types error_received Event_zero true
           "sql query error: driver: bad connection").
  reflexivity.
Defined.

Lemma run_failed_replay :
  rtc (@step sample_types)
    (@enter sample_types initial (query_fails "driver: bad connection") fresh)
    failed_replay.
Proof.
  eapply rtc_l; [eapply step_send_error; reflexivity|].
  eapply rtc_l; [eapply step_recv_error; reflexivity|].
  eapply rtc_l; [eapply step_leave; [reflexivity|by right]|].
  eapply rtc_l; [eapply step_run; reflexivity|].
  apply rtc_refl.
Qed.

Lemma Run_after_the_loop_witness :
  (active failed_replay ↔ ∃ err, at_ failed_replay = Returned err)
  ∧ (at_ failed_replay = Leaving None ∨ at_ failed_replay = Returned None
     → exhausted failed_replay)
  ∧ (∀ err, at_ failed_replay = Leaving err →
     ∃ s', @step sample_types failed_replay s' ∧ at_ s' = Returned err ∧ active s').
Proof.
  apply (@Run_after_the_loop sample_types initial
           (query_fails "driver: bad connection") fresh failed_replay).
  - reflexivity.
  - exact run_failed_replay.
Defined.

(** C3 (as stated, refuted): when the query of [ReadEvents] fails, the
    loop receives the error and leaves, [Run] is called and the pipeline
    is active when the error is returned. *)
Lemma activation_after_failed_replay :
  ¬ @activation_requires_clean_replay sample_types
      (@enter sample_types initial (query_fails "driver: bad connection") fresh).
Proof.
  intros Hclaim.
  specialize (Hclaim failed_replay run_failed_replay).
  discriminate Hclaim. by unfold active.
Qed.

(** C2 (the code departs from it): the replay of a log that holds one
    Put hands the event to the loop, which updates the store and calls
    [Put]; the logger's channel is still nil, so the send inside
    [WritePut] never completes.  The loop never leaves, and the machine
    comes to rest with the caller parked.  Nothing is appended to the
    log. *)
Theorem replay_of_a_put_never_returns :
  (∀ s, rtc (@step sample_types) (@enter sample_types initial no_faults one_put_log) s →
     (∀ err, at_ s ≠ Leaving err ∧ at_ s ≠ Returned err)
     ∧ relation (server s) = relation one_put_log)
  ∧ ∃ s, rtc (@step sample_types) (@enter sample_types initial no_faults one_put_log) s
         ∧ @stuck sample_types s
         ∧ at_ s = Parked {| Sequence := 1; EventType := 2; Key := "a"; Value := "1" |} true
         ∧ store (globals s) = {[ "a" := "1" ]}.
Proof.
  split.
  - intros s Hsteps. split.
    + intros err.
      destruct (@replay_parks sample_types initial no_faults one_put_log
                  {| Sequence := 1; EventType := 2; Key := "a"; Value := "1" |}
                  [CloseError; CloseEvent] s)
        as [(Hat & _)|[(Hat & _)|(Hat & _)]];
        [reflexivity|reflexivity|by right|exact Hsteps|..]; by rewrite Hat.
    + by rewrite (steps_server _ _ Hsteps).
  - eexists. split; [|split; [|split]].
    + eapply rtc_l; [eapply step_recv_event; reflexivity|].
      eapply rtc_l; [eapply step_parked; reflexivity|].
      eapply rtc_l; [eapply step_close_error; reflexivity|].
      eapply rtc_l; [eapply step_close_event; reflexivity|].
      apply rtc_refl.
    + by eapply parked_stuck.
    + reflexivity.
    + reflexivity.
Qed.

End StartupFacts.

(** ** The pipeline at work *)

Module LiveFacts.

Import Live LiveVocabulary.

Section Facts.

Context `{EventTypes}.

Lemma send_Some {A} (c : option (Chan.chan A)) x c' :
  Chan.send c x = Some c' →
  ∃ ch, c = Some ch ∧ (length (Chan.buf ch) < Chan.cap ch)%nat
        ∧ c' = {| Chan.buf := Chan.buf ch ++ [x]; Chan.cap := Chan.cap ch;
                  Chan.closed := Chan.closed ch |}.
Proof.
  destruct c as [ch|]; [|done]. simpl.
  destruct (_ <? _)%nat eqn:Hroom; [|done]. intros [= <-].
  apply Nat.ltb_lt in Hroom. eauto.
Qed.

Lemma send_room {A} (ch : Chan.chan A) x :
  (length (Chan.buf ch) < Chan.cap ch)%nat →
  Chan.send (Some ch) x
  = Some {| Chan.buf := Chan.buf ch ++ [x]; Chan.cap := Chan.cap ch;
            Chan.closed := Chan.closed ch |}.
Proof. intros Hroom. simpl. by apply Nat.ltb_lt in Hroom as ->. Qed.

(** [Put] returns only nil, and it returns exactly when the queue has
    room, having updated the store and queued its event. *)
Lemma Put_returns key value g g' err :
  Put key value g = (g', Some err) →
  err = None
  ∧ ∃ ch, events (logger g) = Some ch ∧ (length (Chan.buf ch) < Chan.cap ch)%nat
          ∧ g' = {| store := <[key := value]> (store g);
                    logger := with_events (logger g)
                                {| Chan.buf := Chan.buf ch ++ [put_event key value];
                                   Chan.cap := Chan.cap ch;
                                   Chan.closed := Chan.closed ch |} |}.
Proof.
  unfold Put, WritePut. simpl.
  destruct (Chan.send _ _) as [c'|] eqn:Hsend; [|done]. intros [= <- <-].
  apply send_Some in Hsend as (ch & Hev & Hroom & ->).
  split; [done|]. by exists ch.
Qed.

Lemma Delete_returns key g g' err :
  Delete key g = (g', Some err) →
  err = None
  ∧ ∃ ch, events (logger g) = Some ch ∧ (length (Chan.buf ch) < Chan.cap ch)%nat
          ∧ g' = {| store := delete key (store g);
                    logger := with_events (logger g)
                                {| Chan.buf := Chan.buf ch ++ [delete_event key];
                                   Chan.cap := Chan.cap ch;
                                   Chan.closed := Chan.closed ch |} |}.
Proof.
  unfold Delete, WriteDelete. simpl.
  destruct (Chan.send _ _) as [c'|] eqn:Hsend; [|done]. intros [= <- <-].
  apply send_Some in Hsend as (ch & Hev & Hroom & ->).
  split; [done|]. by exists ch.
Qed.

Lemma Put_room key value g ch :
  events (logger g) = Some ch → (length (Chan.buf ch) < Chan.cap ch)%nat →
  Put key value g
  = ({| store := <[key := value]> (store g);
        logger := with_events (logger g)
                    {| Chan.buf := Chan.buf ch ++ [put_event key value];
                       Chan.cap := Chan.cap ch; Chan.closed := Chan.closed ch |} |},
     Some None).
Proof.
  intros Hev Hroom. unfold Put, WritePut. simpl. rewrite Hev.
  by rewrite (send_room _ _ Hroom).
Qed.

Lemma Delete_room key g ch :
  events (logger g) = Some ch → (length (Chan.buf ch) < Chan.cap ch)%nat →
  Delete key g
  = ({| store := delete key (store g);
        logger := with_events (logger g)
                    {| Chan.buf := Chan.buf ch ++ [delete_event key];
                       Chan.cap := Chan.cap ch; Chan.closed := Chan.closed ch |} |},
     Some None).
Proof.
  intros Hev Hroom. unfold Delete, WriteDelete. simpl. rewrite Hev.
  by rewrite (send_room _ _ Hroom).
Qed.

Lemma calls_snoc t l :
  calls (t ++ [l])
  = calls t ++ match l with
               | CallPut key value => [OpPut key value]
               | CallDelete key => [OpDelete key]
               | _ => []
               end.
Proof. unfold calls. rewrite omap_app. by destruct l. Qed.

Lemma faultless_snoc t l : faultless (t ++ [l]) ↔ faultless t ∧ is_failure l = false.
Proof.
  unfold faultless. rewrite forallb_app. simpl.
  rewrite andb_true_iff, andb_true_r, negb_true_iff. done.
Qed.

Lemma rows_of_snoc first es e :
  rows_of first (es ++ [e])
  = rows_of first es
    ++ [{| row_sequence := first + Z.of_nat (length es);
           row_event_type := Some (EventType e);
           row_key := Some (Key e); row_value := Some (Value e) |}].
Proof.
  revert first. induction es as [|e' es IH]; intros first.
  - simpl. by rewrite Z.add_0_r.
  - cbn [rows_of app length]. rewrite IH, Nat2Z.inj_succ.
    replace (first + 1 + Z.of_nat (length es))
      with (first + Z.succ (Z.of_nat (length es))) by lia.
    done.
Qed.

Lemma recv_closed_false {A} (zero x : A) ch ch' :
  Chan.recv zero ch = Some (x, false, ch') → Chan.closed ch = true.
Proof.
  unfold Chan.recv. destruct (Chan.buf ch); [|done]. by destruct (Chan.closed ch).
Qed.

Lemma recv_Some {A} (zero x : A) ch ch' :
  Chan.recv zero ch = Some (x, true, ch') →
  Chan.buf ch = x :: Chan.buf ch' ∧ Chan.cap ch' = Chan.cap ch
  ∧ Chan.closed ch' = Chan.closed ch.
Proof.
  unfold Chan.recv. destruct (Chan.buf ch) as [|y rest].
  - by destruct (Chan.closed ch).
  - by intros [= <- <-].
Qed.

Lemma insert_event_appends q e srv rows :
  relation srv = Some rows → smallint (EventType e) = true →
  insert_event q (EventType e) (Key e) (Value e) srv
  = ({| relation := Some (rows ++ [{| row_sequence := serial srv;
                                     row_event_type := Some (EventType e);
                                     row_key := Some (Key e);
                                     row_value := Some (Value e) |}]);
        serial := serial srv + 1;
        journal := journal srv ++ [q] |}, None).
Proof. intros Hrel Hsmall. unfold insert_event. simpl. by rewrite Hrel, Hsmall. Qed.

Lemma insert_event_appended q e srv srv' :
  insert_event q (EventType e) (Key e) (Value e) srv = (srv', None) →
  ∃ rows, relation srv = Some rows
          ∧ relation srv' = Some (rows ++ [{| row_sequence := serial srv;
                                             row_event_type := Some (EventType e);
                                             row_key := Some (Key e);
                                             row_value := Some (Value e) |}])
          ∧ serial srv' = serial srv + 1.
Proof.
  unfold insert_event. simpl. destruct (relation srv) as [rows|]; [|done].
  destruct (smallint _); [|done]. intros [= <-]. eauto.
Qed.

Lemma step_logged m0 srv0 rows0 t s l s' :
  logged m0 srv0 rows0 t s → step s l s' → is_failure l = false →
  logged m0 srv0 rows0 (t ++ [l]) s'.
Proof.
  unfold logged, in_flight, queued.
  intros (Hat & (ch & Hev & Hcap & Hcl) & Hst & done & Hdone & Hrel & Hser) Hstep Hl.
  rewrite calls_snoc.
  destruct Hstep as [s key value g err Hput|s key g err Hdel|s ch0 e ch' Hw Hev0 Hrecv
                    |s ch0 e ch' Hw Hev0 Hrecv|s e srv Hw Hins|s e srv err Hw Hins
                    |s e err Hw|s err ch0 Hw Hsend|s ch0 err ch' Herr Hrecv];
    simpl in *; try done.
  - apply Put_returns in Hput as (_ & ch0 & Hev0 & Hroom & ->). simpl.
    rewrite Hev in Hev0, Hdone. simplify_eq.
    split_and!; [done|eexists; by split_and!|by rewrite foldl_app, Hst|].
    exists done. rewrite fmap_app, Hdone. split_and!; [|done..].
    rewrite <- app_assoc. by destruct (at_ s).
  - apply Delete_returns in Hdel as (_ & ch0 & Hev0 & Hroom & ->). simpl.
    rewrite Hev in Hev0, Hdone. simplify_eq.
    split_and!; [done|eexists; by split_and!|by rewrite foldl_app, Hst|].
    exists done. rewrite fmap_app, Hdone. split_and!; [|done..].
    rewrite <- app_assoc. by destruct (at_ s).
  - rewrite Hev in Hev0, Hdone. simplify_eq.
    apply recv_Some in Hrecv as (Hbuf & Hcap' & Hcl').
    split_and!; [by eauto|eexists; split_and!; [done|congruence..]|by rewrite app_nil_r|].
    exists done. rewrite app_nil_r, Hdone, Hw, Hbuf. done.
  - rewrite Hev in Hev0. simplify_eq.
    apply recv_closed_false in Hrecv. congruence.
  - apply insert_event_appended in Hins as (rows & Hrows & Hrel' & Hser').
    rewrite Hw, Hev in Hdone. rewrite Hev.
    split_and!; [by left|eexists; by split_and!|by rewrite app_nil_r|].
    exists (done ++ [e]). rewrite app_nil_r, Hdone, <- app_assoc. simpl.
    split_and!; [done| |].
    + rewrite Hrel', rows_of_snoc, app_assoc. rewrite Hrel in Hrows. simplify_eq.
      by rewrite Hser.
    + rewrite Hser', Hser, length_app. simpl. lia.
  - destruct Hat as [Hat|[e Hat]]; congruence.
  - rewrite Hev in Hdone |- *.
    split_and!; [done|eexists; by split_and!|by rewrite app_nil_r|].
    exists done. by rewrite app_nil_r.
Qed.

Lemma start_logged m0 l srv0 rows0 :
  relation srv0 = Some rows0 → logged m0 srv0 rows0 [] (start m0 l srv0).
Proof.
  intros Hrel. unfold logged, start, in_flight, queued. simpl.
  split_and!; [by left|by eexists|done|].
  exists []. simpl. by rewrite app_nil_r, Z.add_0_r.
Qed.

Lemma run_logged m0 l srv0 rows0 t s :
  relation srv0 = Some rows0 →
  run (start m0 l srv0) t s → faultless t → logged m0 srv0 rows0 t s.
Proof.
  intros Hrel. induction 1 as [|t s l0 s' _ IH Hstep].
  - intros _. by apply start_logged.
  - intros [Ht Hl]%faultless_snoc. eauto using step_logged.
Qed.

(** *** From the calls to the log and back *)

Lemma step_call o s ch :
  events (logger (globals s)) = Some ch →
  (length (Chan.buf ch) < Chan.cap ch)%nat →
  step s (call_of o)
       {| globals := {| store := perform (store (globals s)) o;
                        logger := with_events (logger (globals s))
                                    {| Chan.buf := Chan.buf ch ++ [event_of o];
                                       Chan.cap := Chan.cap ch;
                                       Chan.closed := Chan.closed ch |} |};
          server := server s; at_ := at_ s |}.
Proof.
  intros Hev Hroom. destruct o as [key value|key]; simpl.
  - eapply (step_put s key value). by apply Put_room.
  - eapply (step_delete s key). by apply Delete_room.
Qed.

Lemma insert_by_sequence_least r rows :
  match rows with [] => True | r' :: _ => row_sequence r ≤ row_sequence r' end →
  insert_by_sequence r rows = r :: rows.
Proof.
  destruct rows as [|r' rows]; [done|]. simpl. intros Hle.
  by apply Z.leb_le in Hle as ->.
Qed.

Lemma order_by_sequence_rows_of first es :
  order_by_sequence (rows_of first es) = rows_of first es.
Proof.
  revert first. induction es as [|e es IH]; intros first; [done|].
  cbn [rows_of]. unfold order_by_sequence in *. cbn [foldr]. rewrite IH.
  apply insert_by_sequence_least. destruct es; simpl; [done|lia].
Qed.

Lemma Scan_rows_of first e e0 :
  0 ≤ first → EventType_fits (EventType e) = true →
  Scan {| row_sequence := first; row_event_type := Some (EventType e);
          row_key := Some (Key e); row_value := Some (Value e) |} e0
  = ({| Sequence := first; EventType := EventType e; Key := Key e; Value := Value e |},
     None).
Proof.
  intros Hpos Hfits. unfold Scan. simpl.
  apply Z.ltb_ge in Hpos as ->. by rewrite Hfits.
Qed.

Lemma replayed_event_of m o seq :
  EventDelete ≠ EventPut →
  replayed m {| Sequence := seq; EventType := EventType (event_of o);
                Key := Key (event_of o); Value := Value (event_of o) |}
  = perform m o.
Proof.
  intros Hne. unfold replayed. destruct o as [key value|key]; simpl.
  - destruct (EventPut =? EventDelete) eqn:Heq; [apply Z.eqb_eq in Heq; congruence|].
    by rewrite Z.eqb_refl.
  - by rewrite Z.eqb_refl.
Qed.

(** The stream of a log made of the events of [ops]: no error, and the
    events replay to what the operations perform. *)
Lemma stream_rows_of m first ops e0 :
  EventDelete ≠ EventPut →
  EventType_fits EventDelete = true → EventType_fits EventPut = true →
  0 ≤ first →
  sent_errors (stream (rows_of first (event_of <$> ops)) None e0) = []
  ∧ foldl replayed m (sent_events (stream (rows_of first (event_of <$> ops)) None e0))
    = foldl perform m ops.
Proof.
  intros Hne Hd Hp. revert m first e0.
  induction ops as [|o ops IH]; intros m first e0 Hpos; [done|].
  cbn [fmap list_fmap rows_of stream].
  rewrite Scan_rows_of; [|done|by destruct o].
  destruct (IH (perform m o) (first + 1)
              {| Sequence := first; EventType := EventType (event_of o);
                 Key := Key (event_of o); Value := Value (event_of o) |})
    as [Herr Hfold]; [lia|].
  split; [exact Herr|].
  unfold sent_events in *. cbn [omap foldl]. simpl.
  rewrite replayed_event_of by done. exact Hfold.
Qed.

(** For every sequence of calls there is a run that makes them, meets
    no failure and comes to rest. *)
Lemma run_exists m0 l srv0 rows0 ops :
  relation srv0 = Some rows0 →
  smallint EventDelete = true → smallint EventPut = true →
  ∃ t s, run (start m0 l srv0) t s ∧ calls t = ops ∧ faultless t ∧ quiescent s.
Proof.
  intros Hrel Hd Hp. induction ops as [|o ops IH] using rev_ind.
  { exists [], (start m0 l srv0). split_and!; [constructor|done..]. }
  destruct IH as (t & s & Hrun & Hcalls & Hfl & Hat & Hq).
  destruct (run_logged _ _ _ _ _ _ Hrel Hrun Hfl)
    as (_ & (ch & Hev & Hcap & Hcl) & _ & done & _ & Hrows & _).
  unfold queued in Hq. rewrite Hev in Hq.
  eexists ((t ++ [call_of o]) ++ [Dequeue (event_of o)] ++ [Append (event_of o)]).
  eexists. split_and!.
  - rewrite app_assoc. eapply run_snoc; [eapply run_snoc; [eapply run_snoc|]|].
    + exact Hrun.
    + apply (step_call o s ch Hev). rewrite Hq, Hcap. simpl. lia.
    + eapply step_dequeue; [exact Hat|reflexivity|]. simpl. rewrite Hq. reflexivity.
    + eapply step_append; [reflexivity|]. simpl.
      apply insert_event_appends; [exact Hrows|by destruct o].
  - rewrite !app_assoc, !calls_snoc, Hcalls, !app_nil_r. by destruct o.
  - rewrite !app_assoc. apply faultless_snoc. split; [|done].
    apply faultless_snoc. split; [|done].
    apply faultless_snoc. split; [done|by destruct o].
  - by split.
Qed.

(** C1: the calls of [Put] and [Delete] made on the pipeline started
    on an empty table, once the writer has appended them all without a
    failure, leave a log whose stream, as [ReadEvents] sends it, holds
    no error and replays by the [switch] of the loop, from the empty
    map, to the store the calls made: the map the operations
    perform in the order of the calls.  Such a run exists for every
    sequence of calls. *)
Theorem replay_restores_the_store l ops :
  sound_types →
  (∃ t s, run (start ∅ l fresh) t s ∧ calls t = ops ∧ faultless t ∧ quiescent s)
  ∧ ∀ t s,
      run (start ∅ l fresh) t s → calls t = ops → faultless t → quiescent s →
      sent_errors (ReadEvents_goroutine no_faults (server s)).2 = []
      ∧ foldl replayed ∅ (sent_events (ReadEvents_goroutine no_faults (server s)).2)
        = store (globals s)
      ∧ store (globals s) = foldl perform ∅ ops.
Proof.
  intros (Hne & Hfd & Hfp & Hsd & Hsp). split.
  { by apply (run_exists ∅ l fresh []). }
  intros t s Hrun Hcalls Hfl [Hat Hq].
  destruct (run_logged ∅ l fresh [] t s eq_refl Hrun Hfl)
    as (_ & _ & Hst & done & Hdone & Hrows & _).
  unfold in_flight in Hdone. rewrite Hat, Hq, app_nil_r, Hcalls in Hdone. subst done.
  rewrite Hcalls in Hst. simpl in Hrows.
  rewrite (ReadEvents_goroutine_fetched no_faults (server s) _ eq_refl Hrows).
  unfold fetched. rewrite Hrows. simpl. rewrite order_by_sequence_rows_of.
  rewrite sent_errors_app, sent_events_app, !app_nil_r.
  destruct (stream_rows_of ∅ 1 ops Event_zero Hne Hfd Hfp) as [Herr Hfold]; [lia|].
  split_and!; [done|by rewrite Hfold, Hst|done].
Qed.

(** *** The store operations *)

(** C10: [Put] and [Delete] have no failing path: whenever they
    return, they return nil, and with room in the queue they do
    return.  [Delete] of a key the store does not hold leaves the store
    as it is, returns nil and queues its Delete event like any other;
    the writer then appends it, so that the log holds a Delete of a
    key that was never there. *)
Theorem Put_Delete_return_nil key value g ch l :
  events (logger g) = Some ch →
  (length (Chan.buf ch) < Chan.cap ch)%nat →
  smallint EventDelete = true →
  Put key value g
  = ({| store := <[key := value]> (store g);
        logger := with_events (logger g) (push ch (put_event key value)) |}, Some None)
  ∧ Delete key g
    = ({| store := delete key (store g);
          logger := with_events (logger g) (push ch (delete_event key)) |}, Some None)
  ∧ (store g !! key = None → delete key (store g) = store g)
  ∧ (∀ g0 g' err, Put key value g0 = (g', Some err) → err = None)
  ∧ (∀ g0 g' err, Delete key g0 = (g', Some err) → err = None)
  ∧ (∃ t s, run (start ∅ l fresh) t s ∧ calls t = [OpDelete key]
            ∧ store (globals s) = ∅
            ∧ relation (server s)
              = Some [{| row_sequence := 1; row_event_type := Some EventDelete;
                         row_key := Some key; row_value := Some "" |}]).
Proof.
  intros Hev Hroom Hsmall. split_and!.
  - by apply Put_room.
  - by apply Delete_room.
  - apply delete_id.
  - intros g0 g' err Hput. by apply Put_returns in Hput as [-> _].
  - intros g0 g' err Hdel. by apply Delete_returns in Hdel as [-> _].
  - eexists [CallDelete key; Dequeue (delete_event key); Append (delete_event key)].
    eexists. split_and!.
    + eapply (run_snoc _ [_; _]); [eapply (run_snoc _ [_]); [eapply (run_snoc _ [])|]|].
      * apply run_nil.
      * eapply (step_delete _ key). eapply Delete_room; [reflexivity|simpl; lia].
      * by eapply step_dequeue.
      * eapply step_append; [reflexivity|]. simpl.
        by apply (insert_event_appends _ (delete_event key) fresh []).
    + done.
    + simpl. apply delete_empty.
    + done.
Qed.

(** *** Submission *)

Lemma run_app s t s' t' s'' : run s t s' → run s' t' s'' → run s (t ++ t') s''.
Proof.
  intros Hrun. induction 1 as [|t' s1 l s2 _ IH Hstep].
  - by rewrite app_nil_r.
  - rewrite app_assoc. by eapply run_snoc.
Qed.

Lemma run_cons s l s' t s'' : step s l s' → run s' t s'' → run s (l :: t) s''.
Proof.
  intros Hstep Hrun. apply (run_app s [l] s'); [|done].
  apply (run_snoc s [] s l s'); [apply run_nil|exact Hstep].
Qed.

(** Calls made one after the other while the queue has room. *)
Lemma run_calls os s ch :
  events (logger (globals s)) = Some ch →
  (length (Chan.buf ch) + length os ≤ Chan.cap ch)%nat →
  run s (call_of <$> os)
      {| globals := {| store := foldl perform (store (globals s)) os;
                       logger := with_events (logger (globals s))
                                   {| Chan.buf := Chan.buf ch ++ (event_of <$> os);
                                      Chan.cap := Chan.cap ch;
                                      Chan.closed := Chan.closed ch |} |};
         server := server s; at_ := at_ s |}.
Proof.
  revert s ch. induction os as [|o os IH]; intros s ch Hev Hroom.
  - simpl. rewrite app_nil_r. destruct s as [[m l] srv w]. simpl in *.
    destruct l as [ev er d]. simpl in *. subst ev. destruct ch. apply run_nil.
  - simpl in Hroom. eapply run_cons; [apply (step_call o s ch Hev); lia|].
    pose proof (IH {| globals := {| store := perform (store (globals s)) o;
                                    logger := with_events (logger (globals s))
                                                (push ch (event_of o)) |};
                      server := server s; at_ := at_ s |}
                  (push ch (event_of o)) eq_refl) as Hrun.
    simpl in Hrun. rewrite <- app_assoc in Hrun. simpl in Hrun.
    apply Hrun. rewrite length_app. simpl. lia.
Qed.

Lemma foldl_perform_again m key value n :
  m !! key = Some value → foldl perform m (replicate n (OpPut key value)) = m.
Proof.
  intros Hm. induction n as [|n IH]; [done|]. simpl. by rewrite insert_id.
Qed.

Lemma unexecuted_snoc t l : unexecuted (t ++ [l]) ↔ unexecuted t ∧ is_exec l = false.
Proof.
  unfold unexecuted. rewrite forallb_app. simpl.
  rewrite andb_true_iff, andb_true_r, negb_true_iff. done.
Qed.

Lemma undrained_snoc t l : undrained (t ++ [l]) ↔ undrained t ∧ is_drain l = false.
Proof.
  unfold undrained. rewrite forallb_app. simpl.
  rewrite andb_true_iff, andb_true_r, negb_true_iff. done.
Qed.

Lemma send_full {A} (ch : Chan.chan A) x :
  (Chan.cap ch ≤ length (Chan.buf ch))%nat → Chan.send (Some ch) x = None.
Proof. intros Hfull. simpl. by apply Nat.ltb_ge in Hfull as ->. Qed.

(** With the queue full, or before [Run], the caller waits. *)
Lemma WritePut_waits l key value :
  match events l with
  | Some ch => (Chan.cap ch ≤ length (Chan.buf ch))%nat
  | None => True
  end →
  WritePut l key value = None ∧ WriteDelete l key = None.
Proof.
  unfold WritePut, WriteDelete. destruct (events l) as [ch|]; [|done].
  intros Hfull. by rewrite !(send_full _ _ Hfull).
Qed.

(** While the writer is in its [Exec] and the queue is full, no call
    returns. *)
Lemma full_queue_waits s e ch t s' :
  at_ s = Executing e → events (logger (globals s)) = Some ch →
  (Chan.cap ch ≤ length (Chan.buf ch))%nat →
  run s t s' → unexecuted t →
  calls t = [] ∧ at_ s' = Executing e ∧ events (logger (globals s')) = Some ch.
Proof.
  intros Hat Hev Hfull. induction 1 as [|t s1 l s2 _ IH Hstep]; [done|].
  intros [Ht Hl]%unexecuted_snoc. destruct (IH Ht) as (Hcalls & Hat1 & Hev1).
  rewrite calls_snoc, Hcalls.
  destruct Hstep as [s1 key value g err Hput|s1 key g err Hdel|s1 ch0 e0 ch' Hw
                    |s1 ch0 e0 ch' Hw|s1 e0 srv Hw|s1 e0 srv err Hw
                    |s1 e0 err Hw|s1 err ch0 Hw|s1 ch0 err ch' Herr Hrecv];
    simpl in *; try congruence.
  - apply Put_returns in Hput as (_ & ch0 & Hev0 & Hroom & _).
    rewrite Hev1 in Hev0. simplify_eq. lia.
  - apply Delete_returns in Hdel as (_ & ch0 & Hev0 & Hroom & _).
    rewrite Hev1 in Hev0. simplify_eq. lia.
  - done.
Qed.

(** C9 (as amended): with the pipeline started and room in its queue,
    [WritePut] and [WriteDelete] append their event to the queue and
    return; a call that returns has sent no statement and changed
    nothing on the server, nor moved the writer: the event is in the
    queue, not in the log.  With the queue full the caller waits, and
    before [Run] it waits for ever. *)
Theorem WritePut_enqueues l ch key value :
  events l = Some ch →
  (length (Chan.buf ch) < Chan.cap ch)%nat →
  WritePut l key value = Some (with_events l (push ch (put_event key value)))
  ∧ WriteDelete l key = Some (with_events l (push ch (delete_event key)))
  ∧ (∀ s lbl s', step s lbl s' → is_call lbl = true →
                 server s' = server s ∧ at_ s' = at_ s)
  ∧ (∀ l0 ch0, events l0 = Some ch0 →
               (Chan.cap ch0 ≤ length (Chan.buf ch0))%nat →
               WritePut l0 key value = None ∧ WriteDelete l0 key = None)
  ∧ (∀ l0, events l0 = None →
           WritePut l0 key value = None ∧ WriteDelete l0 key = None).
Proof.
  intros Hev Hroom. split_and!.
  - unfold WritePut. rewrite Hev. by rewrite (send_room _ _ Hroom).
  - unfold WriteDelete. rewrite Hev. by rewrite (send_room _ _ Hroom).
  - intros s lbl s' Hstep Hcall. by destruct Hstep.
  - intros l0 ch0 Hev0 Hfull. apply WritePut_waits. by rewrite Hev0.
  - intros l0 Hev0. apply WritePut_waits. by rewrite Hev0.
Qed.

(** *** The writer and the error channel *)

Lemma calls_app t t' : calls (t ++ t') = calls t ++ calls t'.
Proof. apply omap_app. Qed.

Lemma step_wired s l s' : step s l s' → wired s → wired s'.
Proof.
  unfold wired.
  intros Hstep ((ch & Hev & Hcap & Hcl) & (ch2 & Herr & Hcap2 & Hcl2 & Hlen2) & Hfin).
  destruct Hstep as [s key value g err Hput|s key g err Hdel|s ch0 e ch' Hw Hev0 Hrecv
                    |s ch0 e ch' Hw Hev0 Hrecv|s e srv Hw Hins|s e srv err Hw Hins
                    |s e err Hw|s err ch0 Hw Hsend|s ch0 err ch' Herr0 Hrecv];
    simpl in *.
  - apply Put_returns in Hput as (_ & ch0 & Hev0 & Hroom & ->). simpl.
    rewrite Hev in Hev0. simplify_eq.
    split_and!; [eexists; by split_and!|eexists; by split_and!|done].
  - apply Delete_returns in Hdel as (_ & ch0 & Hev0 & Hroom & ->). simpl.
    rewrite Hev in Hev0. simplify_eq.
    split_and!; [eexists; by split_and!|eexists; by split_and!|done].
  - rewrite Hev in Hev0. simplify_eq.
    apply recv_Some in Hrecv as (Hbuf & Hcap' & Hcl').
    split_and!; [eexists; split_and!; [done|congruence..]|eexists; by split_and!|done].
  - rewrite Hev in Hev0. simplify_eq.
    apply recv_closed_false in Hrecv. congruence.
  - split_and!; [eexists; by split_and!|eexists; by split_and!|done].
  - split_and!; [eexists; by split_and!|eexists; by split_and!|done].
  - split_and!; [eexists; by split_and!|eexists; by split_and!|done].
  - apply send_Some in Hsend as (ch3 & Herr0 & Hroom & ->).
    rewrite Herr in Herr0. simplify_eq.
    split_and!; [eexists; by split_and!| |done].
    eexists; split_and!; [done..|]. simpl. rewrite length_app. simpl. lia.
  - rewrite Herr in Herr0. simplify_eq.
    apply recv_Some in Hrecv as (Hbuf & Hcap' & Hcl').
    split_and!; [eexists; by split_and!| |done].
    exists ch'. split_and!; [done|congruence..|].
    rewrite Hbuf in Hlen2. simpl in Hlen2. lia.
Qed.

Lemma run_wired m0 l srv0 t s : run (start m0 l srv0) t s → wired s.
Proof.
  induction 1 as [|t s1 l0 s2 _ IH Hstep]; [|by eapply step_wired].
  unfold wired, start. simpl.
  split_and!; [eexists; by split_and!| |done].
  eexists; split_and!; [done..|]. simpl. lia.
Qed.

(** The writer at its push with the channel full stays there for as
    long as nobody receives from the channel. *)
Lemma full_channel_halts s err ch t s' :
  at_ s = Reporting err → errors (logger (globals s)) = Some ch →
  (Chan.cap ch ≤ length (Chan.buf ch))%nat →
  run s t s' → undrained t →
  at_ s' = Reporting err ∧ errors (logger (globals s')) = Some ch.
Proof.
  intros Hat Herr Hfull. induction 1 as [|t s1 l s2 _ IH Hstep]; [done|].
  intros [Ht Hl]%undrained_snoc. destruct (IH Ht) as (Hat1 & Herr1).
  destruct Hstep as [s1 key value g err0 Hput|s1 key g err0 Hdel|s1 ch0 e0 ch' Hw
                    |s1 ch0 e0 ch' Hw|s1 e0 srv Hw|s1 e0 srv err0 Hw
                    |s1 e0 err0 Hw|s1 err0 ch0 Hw Hsend|s1 ch0 err0 ch' Herr0 Hrecv];
    simpl in *; try congruence.
  - by apply Put_returns in Hput as (_ & ch0 & Hev0 & Hroom & ->).
  - by apply Delete_returns in Hdel as (_ & ch0 & Hev0 & Hroom & ->).
  - rewrite Herr1 in Hsend. by rewrite (send_full _ _ Hfull) in Hsend.
Qed.

(** With room in the channel the push goes through. *)
Lemma report_room s err ch :
  at_ s = Reporting err → errors (logger (globals s)) = Some ch →
  (length (Chan.buf ch) < Chan.cap ch)%nat →
  step s (Report err)
       {| globals := {| store := store (globals s);
                        logger := with_errors (logger (globals s)) (push ch err) |};
          server := server s; at_ := Ranging |}.
Proof.
  intros Hat Herr Hroom. apply step_report; [done|].
  rewrite Herr. by apply send_room.
Qed.

(** From its push, the writer gets back to the head of its loop, after
    a receive from the channel if it is full. *)
Lemma report_through s err :
  wired s → at_ s = Reporting err →
  ∃ t' s', run s t' s' ∧ calls t' = [] ∧ at_ s' = Ranging
           ∧ queued s' = queued s ∧ wired s'.
Proof.
  intros Hwired Hat.
  pose proof Hwired as (_ & (ch & Herr & Hcap & Hcl & Hlen) & _).
  destruct (Chan.buf ch) as [|x rest] eqn:Hbuf.
  - eexists [Report err], _. split_and!.
    + eapply run_cons; [|apply run_nil].
      apply (report_room s err ch Hat Herr). rewrite Hbuf, Hcap. simpl. lia.
    + done.
    + done.
    + done.
    + eapply step_wired; [|exact Hwired].
      apply (report_room s err ch Hat Herr). rewrite Hbuf, Hcap. simpl. lia.
  - destruct rest as [|y rest]; [|simpl in Hlen; lia].
    set (s1 := {| globals := {| store := store (globals s);
                                logger := with_errors (logger (globals s))
                                            {| Chan.buf := []; Chan.cap := Chan.cap ch;
                                               Chan.closed := Chan.closed ch |} |};
                  server := server s; at_ := at_ s |}).
    assert (step s (Drain x) s1) as Hdrain.
    { eapply step_drain; [exact Herr|]. unfold Chan.recv. by rewrite Hbuf. }
    assert (0 < Chan.cap ch)%nat as Hroom by lia.
    pose proof (report_room s1 err _ Hat eq_refl Hroom) as Hreport.
    eexists [Drain x; Report err], _. split_and!.
    + eapply run_cons; [exact Hdrain|]. eapply run_cons; [exact Hreport|]. apply run_nil.
    + done.
    + done.
    + done.
    + eapply step_wired; [exact Hreport|]. eapply step_wired; [exact Hdrain|exact Hwired].
Qed.

(** From anywhere, the writer gets back to the head of its loop. *)
Lemma to_ranging s :
  wired s →
  ∃ t' s', run s t' s' ∧ calls t' = [] ∧ at_ s' = Ranging
           ∧ queued s' = queued s ∧ wired s'.
Proof.
  intros Hwired. destruct (at_ s) as [|e|err|] eqn:Hat.
  - exists [], s. split_and!; [apply run_nil|done..].
  - destruct (insert_event query (EventType e) (Key e) (Value e) (server s))
      as [srv [err|]] eqn:Hins.
    + pose proof (step_append_rejected s e srv err Hat Hins) as Hstep.
      destruct (report_through _ err (step_wired _ _ _ Hstep Hwired) eq_refl)
        as (t' & s' & Hrun & Hcalls & Hat' & Hq & Hw').
      exists (AppendFailed e err :: t'), s'.
      split_and!; [by eapply run_cons|done..].
    + pose proof (step_append s e srv Hat Hins) as Hstep.
      eexists [Append e], _.
      split_and!; [eapply run_cons; [exact Hstep|apply run_nil]|done..|].
      by eapply step_wired.
  - by apply (report_through s err).
  - by destruct Hwired as (_ & _ & ?).
Qed.

(** The writer reaches every event of the queue. *)
Lemma attempt_reached pre e post s :
  wired s → at_ s = Ranging → queued s = pre ++ e :: post →
  ∃ t' s', run s t' s' ∧ calls t' = [] ∧ at_ s' = Executing e ∧ queued s' = post.
Proof.
  revert s. induction pre as [|e0 pre IH]; intros s Hwired Hat Hq.
  - pose proof Hwired as ((ch & Hev & Hcap & Hcl) & _).
    unfold queued in Hq. rewrite Hev in Hq. simpl in Hq.
    eexists [Dequeue e], _. split_and!.
    + eapply run_cons; [|apply run_nil].
      eapply step_dequeue; [exact Hat|exact Hev|]. unfold Chan.recv. by rewrite Hq.
    + done.
    + done.
    + done.
  - pose proof Hwired as ((ch & Hev & Hcap & Hcl) & _).
    unfold queued in Hq. rewrite Hev in Hq. simpl in Hq.
    assert (step s (Dequeue e0)
              {| globals := {| store := store (globals s);
                               logger := with_events (logger (globals s))
                                           {| Chan.buf := pre ++ e :: post;
                                              Chan.cap := Chan.cap ch;
                                              Chan.closed := Chan.closed ch |} |};
                 server := server s; at_ := Executing e0 |}) as Hstep.
    { eapply step_dequeue; [exact Hat|exact Hev|]. unfold Chan.recv. by rewrite Hq. }
    destruct (to_ranging _ (step_wired _ _ _ Hstep Hwired))
      as (t1 & s1 & Hrun1 & Hcalls1 & Hat1 & Hq1 & Hw1).
    destruct (IH s1 Hw1 Hat1) as (t2 & s2 & Hrun2 & Hcalls2 & Hat2 & Hq2).
    { by rewrite Hq1. }
    exists (Dequeue e0 :: t1 ++ t2), s2.
    split_and!; [| |done..].
    + eapply run_cons; [exact Hstep|]. by eapply run_app.
    + change (calls (Dequeue e0 :: t1 ++ t2)) with (calls (t1 ++ t2)).
      by rewrite calls_app, Hcalls1, Hcalls2.
Qed.

(** C8 (as amended): a failed append is pushed on the error channel,
    which holds one error.  With the channel empty the push goes
    through and the writer is back at the head of its loop; with the
    channel full the writer waits at its push for as long as nobody
    receives from the channel.  With the channel received from, the
    writer dequeues every event of the queue and attempts its append,
    whatever failed before. *)
Theorem writer_resumes_once_drained m0 l srv0 t s pre e post :
  run (start m0 l srv0) t s →
  queued s = pre ++ e :: post →
  (∃ t' s', run s t' s' ∧ calls t' = [] ∧ at_ s' = Executing e ∧ queued s' = post)
  ∧ (∀ err, at_ s = Reporting err → reported s = [] →
       ∃ s', step s (Report err) s' ∧ at_ s' = Ranging
             ∧ reported s' = [err] ∧ queued s' = queued s)
  ∧ (∀ err, at_ s = Reporting err → reported s ≠ [] →
       ∀ t' s', run s t' s' → undrained t' → at_ s' = Reporting err).
Proof.
  intros Hrun Hq. pose proof (run_wired _ _ _ _ _ Hrun) as Hwired. split_and!.
  - destruct (to_ranging s Hwired) as (t1 & s1 & Hrun1 & Hcalls1 & Hat1 & Hq1 & Hw1).
    destruct (attempt_reached pre e post s1 Hw1 Hat1) as (t2 & s2 & Hrun2 & Hcalls2 & ?).
    { by rewrite Hq1. }
    exists (t1 ++ t2), s2.
    split_and!; [by eapply run_app|by rewrite calls_app, Hcalls1, Hcalls2|tauto..].
  - intros err Hat Hrep.
    destruct Hwired as (_ & (ch & Herr & Hcap & Hcl & Hlen) & _).
    unfold reported in Hrep. rewrite Herr in Hrep.
    eexists. split; [apply (report_room s err ch Hat Herr); rewrite Hrep, Hcap; simpl; lia|].
    unfold reported, queued. simpl. by rewrite Hrep.
  - intros err Hat Hrep t' s' Hrun' Hund.
    destruct Hwired as (_ & (ch & Herr & Hcap & Hcl & Hlen) & _).
    unfold reported in Hrep. rewrite Herr in Hrep.
    eapply (full_channel_halts s err ch); [done..| |exact Hrun'|exact Hund].
    rewrite Hcap. destruct (Chan.buf ch); [done|simpl; lia].
Qed.

End Facts.

Lemma WritePut_enqueues_witness :
  @WritePut sample_types (Run constructed) "k" "v"
  = Some (with_events (Run constructed)
            (push (Chan.make Event 16) (@put_event sample_types "k" "v")))
  ∧ @WriteDelete sample_types (Run constructed) "k"
    = Some (with_events (Run constructed)
              (push (Chan.make Event 16) (@delete_event sample_types "k")))
  ∧ (∀ s lbl s', @step sample_types s lbl s' → is_call lbl = true →
                 server s' = server s ∧ at_ s' = at_ s)
  ∧ (∀ l0 ch0, events l0 = Some ch0 →
               (Chan.cap ch0 ≤ length (Chan.buf ch0))%nat →
               @WritePut sample_types l0 "k" "v" = None
               ∧ @WriteDelete sample_types l0 "k" = None)
  ∧ (∀ l0, events l0 = None →
           @WritePut sample_types l0 "k" "v" = None
           ∧ @WriteDelete sample_types l0 "k" = None).
Proof.
  apply (@WritePut_enqueues sample_types (Run constructed) (Chan.make Event 16) "k" "v").
  - reflexivity.
  - simpl. lia.
Defined.

(** C9 (as stated, refuted): with sixteen events in the queue the call
    does not return, neither [WritePut] nor [WriteDelete]; and while
    the writer is in its [Exec], no call returns before that [Exec] has
    come back. *)
Lemma WritePut_waits_for_the_writer :
  @run sample_types (@start ∅ constructed fresh) seventeen_calls saturated
  ∧ @WritePut sample_types (logger (globals saturated)) "k" "v" = None
  ∧ @WriteDelete sample_types (logger (globals saturated)) "k" = None
  ∧ ∀ t s', @run sample_types saturated t s' → unexecuted t → calls t = [].
Proof.
  split_and!; [|reflexivity..|].
  { unfold seventeen_calls.
    eapply (@run_cons sample_types); [eapply (@step_put sample_types _ "k" "v"); reflexivity|].
    eapply (@run_cons sample_types); [eapply (@step_dequeue sample_types); reflexivity|].
    pose proof (@run_calls sample_types (replicate 16 (OpPut "k" "v"))
                  {| globals := {| store := {[ "k" := "v" ]};
                                   logger := with_events (Run constructed)
                                               (Chan.make Event 16) |};
                     server := fresh; at_ := Executing waiting_event |}
                  (Chan.make Event 16) eq_refl) as Hrun.
    rewrite foldl_perform_again in Hrun by apply lookup_singleton_eq.
    apply Hrun. simpl. lia. }
  intros t s' Hrun Hun.
  eapply (@full_queue_waits sample_types saturated); [reflexivity..| |exact Hrun|exact Hun].
  simpl. lia.
Qed.

Lemma run_two_failures :
  @run sample_types (@start ∅ constructed fresh) two_failures clogged.
Proof.
  unfold two_failures.
  eapply (@run_cons sample_types); [eapply (@step_put sample_types _ "a" "1"); reflexivity|].
  eapply (@run_cons sample_types); [eapply (@step_put sample_types _ "b" "2"); reflexivity|].
  eapply (@run_cons sample_types); [eapply (@step_put sample_types _ "c" "3"); reflexivity|].
  eapply (@run_cons sample_types); [eapply (@step_dequeue sample_types); reflexivity|].
  eapply (@run_cons sample_types); [eapply (@step_append_fault sample_types); reflexivity|].
  eapply (@run_cons sample_types); [eapply (@step_report sample_types); reflexivity|].
  eapply (@run_cons sample_types); [eapply (@step_dequeue sample_types); reflexivity|].
  eapply (@run_cons sample_types); [eapply (@step_append_fault sample_types); reflexivity|].
  apply run_nil.
Qed.

(** C8 (as stated, refuted): after two failed appends that nobody
    received from the error channel, the writer waits at its second
    push; the third event stays in the queue and its append is not
    attempted for as long as the channel is not drained. *)
Lemma writer_halts_on_full_channel :
  ¬ @writer_never_halts sample_types (@start ∅ constructed fresh).
Proof.
  intros Hclaim.
  destruct (Hclaim two_failures clogged third_event run_two_failures)
    as (t' & s' & Hrun & Hund & Hat).
  { apply list_elem_of_here. }
  destruct (@full_channel_halts sample_types clogged "driver: bad connection"
              {| Chan.buf := ["driver: bad connection"]; Chan.cap := 1;
                 Chan.closed := false |} t' s' eq_refl eq_refl)
    as [Hat' _]; [simpl; lia|exact Hrun|exact Hund|].
  congruence.
Qed.

Lemma writer_resumes_once_drained_witness :
  (∃ t' s', @run sample_types clogged t' s' ∧ calls t' = []
            ∧ at_ s' = Executing third_event ∧ queued s' = [])
  ∧ (∀ err, at_ clogged = Reporting err → reported clogged = [] →
       ∃ s', @step sample_types clogged (Report err) s' ∧ at_ s' = Ranging
             ∧ reported s' = [err] ∧ queued s' = queued clogged)
  ∧ (∀ err, at_ clogged = Reporting err → reported clogged ≠ [] →
       ∀ t' s', @run sample_types clogged t' s' → undrained t' →
                at_ s' = Reporting err).
Proof.
  apply (@writer_resumes_once_drained sample_types ∅ constructed fresh
           two_failures clogged [] third_event []).
  - exact run_two_failures.
  - reflexivity.
Defined.

Lemma sample_types_sound : @sound_types sample_types.
Proof. by repeat split. Qed.

Lemma replay_restores_the_store_witness :
  (∃ t s, @run sample_types (@start ∅ constructed fresh) t s
          ∧ calls t = [OpPut "a" "1"; OpDelete "a"; OpPut "a" "2"]
          ∧ faultless t ∧ quiescent s)
  ∧ ∀ t s,
      @run sample_types (@start ∅ constructed fresh) t s →
      calls t = [OpPut "a" "1"; OpDelete "a"; OpPut "a" "2"] →
      faultless t → quiescent s →
      sent_errors (@ReadEvents_goroutine sample_types no_faults (server s)).2 = []
      ∧ foldl (@replayed sample_types) ∅
          (sent_events (@ReadEvents_goroutine sample_types no_faults (server s)).2)
        = store (globals s)
      ∧ store (globals s)
        = foldl perform ∅ [OpPut "a" "1"; OpDelete "a"; OpPut "a" "2"].
Proof.
  apply (@replay_restores_the_store sample_types constructed
           [OpPut "a" "1"; OpDelete "a"; OpPut "a" "2"]).
  unfold sound_types. simpl. repeat split; [lia|reflexivity..].
Defined.

Lemma Put_Delete_return_nil_witness :
  @Put sample_types "k" "v" {| store := ∅; logger := Run constructed |}
  = ({| store := <["k" := "v"]> ∅;
        logger := with_events (Run constructed)
                    (push (Chan.make Event 16) (@put_event sample_types "k" "v")) |},
     Some None)
  ∧ @Delete sample_types "k" {| store := ∅; logger := Run constructed |}
    = ({| store := delete "k" ∅;
          logger := with_events (Run constructed)
                      (push (Chan.make Event 16) (@delete_event sample_types "k")) |},
       Some None)
  ∧ ((∅ : gmap string string) !! "k" = None → delete "k" (∅ : gmap string string) = ∅)
  ∧ (∀ g0 g' err, @Put sample_types "k" "v" g0 = (g', Some err) → err = None)
  ∧ (∀ g0 g' err, @Delete sample_types "k" g0 = (g', Some err) → err = None)
  ∧ (∃ t s, @run sample_types (@start ∅ constructed fresh) t s
            ∧ calls t = [OpDelete "k"]
            ∧ store (globals s) = ∅
            ∧ relation (server s)
              = Some [{| row_sequence := 1; row_event_type := Some 1;
                         row_key := Some "k"; row_value := Some "" |}]).
Proof.
  apply (@Put_Delete_return_nil sample_types "k" "v"
           {| store := ∅; logger := Run constructed |} (Chan.make Event 16) constructed).
  - reflexivity.
  - simpl. lia.
  - reflexivity.
Defined.

End LiveFacts.

(** ** The store and the request handlers *)

Module StoreFacts.

Import Http.

Section Facts.

Context `{EventTypes}.

Lemma Put_store key value g : store (Put key value g).1 = <[key := value]> (store g).
Proof. unfold Put. simpl. by destruct (WritePut _ _ _). Qed.

Lemma Delete_store key g : store (Delete key g).1 = delete key (store g).
Proof. unfold Delete. simpl. by destruct (WriteDelete _ _). Qed.

(** X1: a value put is the value got, for the key written and for no
    other, and that from the moment the store is updated: also while the
    call of [Put] is still waiting on the queue of the logger. *)
Theorem Get_after_Put key value g :
  Get key (Put key value g).1 = (value, None)
  ∧ ∀ key', key' ≠ key → Get key' (Put key value g).1 = Get key' g.
Proof.
  unfold Get. rewrite Put_store. split.
  - by rewrite lookup_insert_eq.
  - intros key' Hne. by rewrite lookup_insert_ne.
Qed.

(** X2: after [Delete] the key is reported missing with
    [ErrorNoSuchKey] and the empty value, whether or not it was there,
    and the other keys are as before; a [Put] of the key is undone. *)
Theorem Get_after_Delete key g :
  Get key (Delete key g).1 = ("", Some ErrorNoSuchKey)
  ∧ (∀ key', key' ≠ key → Get key' (Delete key g).1 = Get key' g)
  ∧ (∀ value, Get key (Delete key (Put key value g).1).1 = ("", Some ErrorNoSuchKey)).
Proof.
  unfold Get. split_and!.
  - by rewrite Delete_store, lookup_delete_eq.
  - intros key' Hne. by rewrite Delete_store, lookup_delete_ne.
  - intros value. by rewrite Delete_store, lookup_delete_eq.
Qed.

Lemma get_served r g :
  served (keyValueGetHandler unwritten r g)
  = match store g !! vars_key r with
    | Some value => (StatusOK, value)
    | None => (StatusNotFound,
               ErrorNoSuchKey +:+ String "010" EmptyString
               +:+ ErrorNoSuchKey +:+ String "010" EmptyString)
    end.
Proof.
  unfold keyValueGetHandler, Get. by destruct (store g !! vars_key r).
Qed.

(** X3: the GET handler answers 200 with the value when the store holds
    the key.  When it does not, it answers 404 and never 500: the branch
    for [ErrorNoSuchKey] does not return, so the second [http.Error]
    finds the status line written and only appends the message a second
    time. *)
Theorem keyValueGetHandler_served r g :
  served (keyValueGetHandler unwritten r g)
  = match store g !! vars_key r with
    | Some value => (StatusOK, value)
    | None => (StatusNotFound,
               ErrorNoSuchKey +:+ String "010" EmptyString
               +:+ ErrorNoSuchKey +:+ String "010" EmptyString)
    end.
Proof. apply get_served. Qed.

(** X4: a PUT whose handler returns answers 201 with an empty body when
    the body of the request was read, and a GET of the key then answers
    200 with that body; it answers 500 with the message of the read
    error otherwise, the store and the logger being left as they
    were. *)
Theorem keyValuePutHandler_then_Get r g g' w :
  keyValuePutHandler unwritten r g = (g', Some w) →
  match read_body r with
  | inl value =>
      served w = (StatusCreated, "")
      ∧ ∀ r', vars_key r' = vars_key r →
              served (keyValueGetHandler unwritten r' g') = (StatusOK, value)
  | inr err =>
      served w = (StatusInternalServerError, err +:+ String "010" EmptyString)
      ∧ g' = g
  end.
Proof.
  unfold keyValuePutHandler. destruct (read_body r) as [value|err].
  - destruct (Put (vars_key r) value g) as [g1 [[err|]|]] eqn:HPut.
    + by apply LiveFacts.Put_returns in HPut as [? _].
    + intros [= <- <-]. split; [done|]. intros r' Hkey.
      rewrite get_served, Hkey.
      apply (f_equal fst) in HPut. simpl in HPut. subst g1.
      by rewrite Put_store, lookup_insert_eq.
    + done.
  - by intros [= <- <-].
Qed.

(** X5: a DELETE whose handler returns answers 200 with an empty body,
    whether or not the store held the key, and a GET of the key then
    answers 404. *)
Theorem keyValueDeleteHandler_then_Get r g g' w :
  keyValueDeleteHandler unwritten r g = (g', Some w) →
  served w = (StatusOK, "")
  ∧ ∀ r', vars_key r' = vars_key r →
          fst (served (keyValueGetHandler unwritten r' g')) = StatusNotFound.
Proof.
  unfold keyValueDeleteHandler.
  destruct (Delete (vars_key r) g) as [g1 [[err|]|]] eqn:HDel.
  - by apply LiveFacts.Delete_returns in HDel as [? _].
  - intros [= <- <-]. split; [done|]. intros r' Hkey.
    rewrite get_served, Hkey.
    apply (f_equal fst) in HDel. simpl in HDel. subst g1.
    by rewrite Delete_store, lookup_delete_eq.
  - done.
Qed.

(** X19: a PUT that meets a full queue, or a logger whose [Run] was not
    called, gets no answer: its handler waits inside [Put].  The store
    has the value all the same, and a GET of the key answers 200 with it,
    while nothing was queued for the log. *)
Theorem keyValuePutHandler_waits r g value :
  read_body r = inl value →
  match events (logger g) with
  | Some ch => (Chan.cap ch ≤ length (Chan.buf ch))%nat
  | None => True
  end →
  ∃ g', keyValuePutHandler unwritten r g = (g', None)
        ∧ logger g' = logger g
        ∧ ∀ r', vars_key r' = vars_key r →
                served (keyValueGetHandler unwritten r' g') = (StatusOK, value).
Proof.
  intros Hbody Hfull. unfold keyValuePutHandler, Put. rewrite Hbody. simpl.
  destruct (LiveFacts.WritePut_waits (logger g) (vars_key r) value Hfull) as [-> _].
  eexists. split_and!; [done..|].
  intros r' Hkey. rewrite get_served, Hkey. simpl.
  by rewrite lookup_insert_eq.
Qed.

End Facts.

Lemma keyValuePutHandler_then_Get_witness :
  served (WriteHeader StatusCreated unwritten) = (StatusCreated, "")
  ∧ ∀ r', vars_key r' = "k" →
          served (keyValueGetHandler unwritten r'
                    (@Put sample_types "k" "v" {| store := ∅; logger := Run constructed |}).1)
          = (StatusOK, "v").
Proof.
  apply (@keyValuePutHandler_then_Get sample_types
           {| vars_key := "k"; read_body := inl "v" |}
           {| store := ∅; logger := Run constructed |}).
  reflexivity.
Defined.

Lemma keyValueDeleteHandler_then_Get_witness :
  served unwritten = (StatusOK, "")
  ∧ ∀ r', vars_key r' = "k" →
          fst (served (keyValueGetHandler unwritten r'
                         (@Delete sample_types "k"
                            {| store := ∅; logger := Run constructed |}).1))
          = StatusNotFound.
Proof.
  apply (@keyValueDeleteHandler_then_Get sample_types
           {| vars_key := "k"; read_body := inl "" |}
           {| store := ∅; logger := Run constructed |}).
  reflexivity.
Defined.

Lemma keyValuePutHandler_waits_witness :
  ∃ g', @keyValuePutHandler sample_types unwritten
          {| vars_key := "k"; read_body := inl "v" |} initial = (g', None)
        ∧ logger g' = logger initial
        ∧ ∀ r', vars_key r' = "k" →
                served (keyValueGetHandler unwritten r' g') = (StatusOK, "v").
Proof.
  apply (@keyValuePutHandler_waits sample_types
           {| vars_key := "k"; read_body := inl "v" |} initial "v").
  - reflexivity.
  - exact I.
Defined.

End StoreFacts.

(** ** Construction and the stream, on every input *)

Module LoggerFacts.

(** X6: when the constructor returns a logger, the error beside it is
    nil, the channels of the logger are nil (they are made by [Run]), the
    data source is the one the parameters spell, and neither [sql.Open]
    nor [Ping] nor the query of the probe failed. *)
Theorem NewPostgresTransactionLogger_returns config f srv srv' l err :
  NewPostgresTransactionLogger config f srv = (srv', Returns (Some l, err)) →
  err = None ∧ events l = None ∧ errors l = None
  ∧ dataSource (db l)
    = "host=" +:+ host config +:+ " dbname=" +:+ dbName config +:+
      " user=" +:+ user config +:+ " password=" +:+ password config
  ∧ open_fault f = None ∧ ping_fault f = None ∧ query_fault f = None.
Proof.
  unfold NewPostgresTransactionLogger.
  destruct (open_fault f); [done|]. destruct (ping_fault f); [done|].
  unfold verifyTableExists. destruct (query_fault f); [done|].
  destruct (select_regclass _ _ _) as [srv1 cells]. simpl.
  destruct (String.eqb _ _), (rows_err _); try done.
  - by intros [= <- <- <-].
  - destruct (createTable f srv1) as [srv2 [?|]]; [done|]. by intros [= <- <- <-].
Qed.

(** X7: on a database that has the table, the constructor sends no
    CREATE TABLE and leaves the rows and the sequence as they are,
    whatever fails: it sends the probe or nothing. *)
Theorem NewPostgresTransactionLogger_keeps_the_log config f srv rows :
  relation srv = Some rows →
  relation (NewPostgresTransactionLogger config f srv).1 = Some rows
  ∧ serial (NewPostgresTransactionLogger config f srv).1 = serial srv
  ∧ (journal (NewPostgresTransactionLogger config f srv).1 = journal srv
     ∨ journal (NewPostgresTransactionLogger config f srv).1
       = journal srv ++ ["SELECT to_regclass('public.transactions');"]).
Proof.
  intros Hrel. unfold NewPostgresTransactionLogger.
  destruct (open_fault f); [by auto|]. destruct (ping_fault f); [by auto|].
  unfold verifyTableExists. destruct (query_fault f); [by auto|].
  unfold select_regclass. rewrite Hrel.
  destruct (walk_fault f) as [[n err]|]; simpl.
  - destruct (String.eqb _ _); simpl; by auto.
  - change (scan_regclass [Some TABLE] "" =? TABLE)%string with true. simpl. by auto.
Qed.

(** X8: without a failure of the connection, [verifyTableExists] tells
    exactly whether the table is there, with a nil error; the NULL the
    server answers when it is not there makes [Scan] fail, which the loop
    ignores.  An error of the iteration is returned, not raised. *)
Theorem verifyTableExists_exact f srv :
  query_fault f = None →
  (verifyTableExists f srv).2
  = Returns (match walk_fault f with
             | Some (O, _) => false
             | _ => bool_decide (is_Some (relation srv))
             end,
             snd <$> walk_fault f)
  ∧ relation (verifyTableExists f srv).1 = relation srv.
Proof.
  intros Hq. unfold verifyTableExists, select_regclass. rewrite Hq.
  cbn [fst snd relation record_statement].
  destruct (walk_fault f) as [[[|n] err]|], (relation srv); simpl;
    rewrite ?take_nil; by split.
Qed.

Section Stream.

Context `{EventTypes}.

Lemma stream_shape cursor rows_err e :
  ∃ es errs, stream cursor rows_err e = (SendEvent <$> es) ++ (SendError <$> errs)
             ∧ (length errs ≤ 1)%nat.
Proof.
  revert e. induction cursor as [|r cursor IH]; intros e; simpl.
  - destruct rows_err as [err|].
    + exists [], [Errorf "transaction log read failure" err]. split; [done|simpl; lia].
    + exists [], []. split; [done|simpl; lia].
  - destruct (Scan r e) as [e' [err|]].
    + exists [], [Errorf "error reading row" err]. split; [done|simpl; lia].
    + destruct (IH e') as (es & errs & -> & Hlen). by exists (e' :: es), errs.
Qed.

Lemma goroutine_split f srv :
  ∃ es errs,
    (ReadEvents_goroutine f srv).2
    = (SendEvent <$> es) ++ (SendError <$> errs) ++ [CloseError; CloseEvent]
    ∧ (length errs ≤ 1)%nat.
Proof.
  unfold ReadEvents_goroutine. destruct (query_fault f) as [err|].
  { exists [], [Errorf "sql query error" err]. split; [done|simpl; lia]. }
  unfold select_events. simpl. destruct (relation srv) as [rows|].
  - destruct (stream_shape (cursor (walk (order_by_sequence rows) (walk_fault f)))
                (rows_err (walk (order_by_sequence rows) (walk_fault f))) Event_zero)
      as (es & errs & Hs & Hlen).
    exists es, errs. simpl. rewrite Hs. by rewrite <- app_assoc.
  - exists [], [Errorf "sql query error" "pq: relation does not exist"].
    split; [done|simpl; lia].
Qed.

Lemma sent_errors_SendError errs : sent_errors (SendError <$> errs) = errs.
Proof. induction errs as [|e errs IH]; [done|]. unfold sent_errors; simpl. by f_equal. Qed.

Lemma sent_events_SendError errs : sent_events (SendError <$> errs) = [].
Proof. induction errs as [|e errs IH]; [done|]. unfold sent_events; simpl. done. Qed.

(** X9: whatever the database holds and whatever fails, the goroutine of
    [ReadEvents] sends events, then at most one error, and then closes
    the error channel and the event channel, in this order: it never
    sends an event after an error, never sends a second error (the room
    for one error in [outError] is enough), and always closes both
    channels. *)
Theorem ReadEvents_goroutine_shape f srv :
  (ReadEvents_goroutine f srv).2
  = (SendEvent <$> sent_events (ReadEvents_goroutine f srv).2)
    ++ (SendError <$> sent_errors (ReadEvents_goroutine f srv).2)
    ++ [CloseError; CloseEvent]
  ∧ (length (sent_errors (ReadEvents_goroutine f srv).2) ≤ 1)%nat.
Proof.
  destruct (goroutine_split f srv) as (es & errs & Hs & Hlen).
  assert (sent_events (ReadEvents_goroutine f srv).2 = es) as Hes.
  { rewrite Hs, !sent_events_app, sent_events_SendEvent, sent_events_SendError.
    by rewrite app_nil_r. }
  assert (sent_errors (ReadEvents_goroutine f srv).2 = errs) as Herrs.
  { rewrite Hs, !sent_errors_app, sent_errors_SendEvent, sent_errors_SendError.
    by rewrite app_nil_r. }
  by rewrite Hes, Herrs.
Qed.

Lemma insert_by_sequence_Permutation r rows : insert_by_sequence r rows ≡ₚ r :: rows.
Proof.
  induction rows as [|r' rows IH]; [done|]. simpl.
  destruct (row_sequence r <=? row_sequence r'); [done|].
  rewrite IH. apply Permutation_swap.
Qed.

Lemma order_by_sequence_Permutation rows : order_by_sequence rows ≡ₚ rows.
Proof.
  induction rows as [|r rows IH]; [done|].
  unfold order_by_sequence in *. simpl.
  by rewrite insert_by_sequence_Permutation, IH.
Qed.

Lemma insert_by_sequence_Sorted r rows :
  StronglySorted Z.le (row_sequence <$> rows) →
  StronglySorted Z.le (row_sequence <$> insert_by_sequence r rows).
Proof.
  induction rows as [|r' rows IH]; intros Hs; simpl.
  - repeat constructor.
  - destruct (row_sequence r <=? row_sequence r') eqn:Hle.
    + apply Z.leb_le in Hle. simpl. constructor; [done|].
      apply StronglySorted_inv in Hs as [_ Hall].
      constructor; [done|]. eapply Forall_impl; [exact Hall|]. simpl. lia.
    + apply Z.leb_gt in Hle. apply StronglySorted_inv in Hs as [Hs Hall].
      simpl. constructor; [by apply IH|].
      rewrite insert_by_sequence_Permutation. simpl. constructor; [lia|done].
Qed.

Lemma order_by_sequence_Sorted rows :
  StronglySorted Z.le (row_sequence <$> order_by_sequence rows).
Proof.
  induction rows as [|r rows IH]; [constructor|].
  unfold order_by_sequence in *. simpl. by apply insert_by_sequence_Sorted.
Qed.

Lemma decode_Sequence r : valid r = true → Sequence (decode r) = row_sequence r.
Proof.
  unfold valid, decode, Scan.
  destruct (row_sequence r <? 0); [done|].
  destruct (row_event_type r) as [t|]; [|done].
  destruct (EventType_fits t); [|done].
  destruct (row_key r), (row_value r); simpl; done.
Qed.

(** X10: on a log all of whose rows scan, read without a failure of the
    connection, the goroutine sends no error and one event per row, in
    ascending order of the sequence numbers, however the rows lie in the
    table. *)
Theorem ReadEvents_goroutine_ordered srv rows :
  relation srv = Some rows →
  forallb valid rows = true →
  sent_errors (ReadEvents_goroutine no_faults srv).2 = []
  ∧ sent_events (ReadEvents_goroutine no_faults srv).2 ≡ₚ decode <$> rows
  ∧ StronglySorted Z.le (Sequence <$> sent_events (ReadEvents_goroutine no_faults srv).2).
Proof.
  intros Hrel Hvalid.
  assert (forallb valid (order_by_sequence rows) = true) as Hvalid'.
  { apply forallb_forall. intros r Hr. rewrite forallb_forall in Hvalid. apply Hvalid.
    apply list_elem_of_In. rewrite <- (order_by_sequence_Permutation rows).
    by apply list_elem_of_In. }
  rewrite (ReadEvents_goroutine_fetched no_faults srv rows eq_refl Hrel).
  unfold fetched. rewrite Hrel. simpl.
  rewrite <- (app_nil_r (order_by_sequence rows)) at 1 2 3.
  rewrite (stream_valid_prefix _ _ _ _ Hvalid'). simpl.
  rewrite app_nil_r, sent_errors_app, sent_events_app, app_nil_r.
  rewrite list_fmap_compose, sent_errors_SendEvent, sent_events_SendEvent.
  change (sent_events [CloseError; CloseEvent]) with (@nil Event).
  rewrite app_nil_r.
  split_and!; [done|by rewrite order_by_sequence_Permutation|].
  rewrite <- list_fmap_compose.
  rewrite (list_fmap_ext (Sequence ∘ decode) row_sequence (order_by_sequence rows)).
  - apply order_by_sequence_Sorted.
  - intros i r Hr. simpl. apply decode_Sequence.
    rewrite forallb_forall in Hvalid'. apply Hvalid', list_elem_of_In.
    by eapply list_elem_of_lookup_2.
Qed.

End Stream.

Lemma NewPostgresTransactionLogger_returns_witness :
  (None : option error) = None
  ∧ events constructed = None ∧ errors constructed = None
  ∧ dataSource (db constructed)
    = "host=" +:+ "localhost" +:+ " dbname=" +:+ "kv" +:+
      " user=" +:+ "kv" +:+ " password=" +:+ "kv"
  ∧ open_fault no_faults = None ∧ ping_fault no_faults = None
  ∧ query_fault no_faults = None.
Proof.
  apply (NewPostgresTransactionLogger_returns
           {| dbName := "kv"; host := "localhost"; user := "kv"; password := "kv" |}
           no_faults fresh
           {| relation := Some []; serial := 1;
              journal := ["SELECT to_regclass('public.transactions');"] |}).
  reflexivity.
Defined.

Lemma NewPostgresTransactionLogger_keeps_the_log_witness :
  relation (NewPostgresTransactionLogger
              {| dbName := "kv"; host := "localhost"; user := "kv"; password := "kv" |}
              (walk_fails 0 "driver: bad connection") torn_log).1
  = relation torn_log
  ∧ serial (NewPostgresTransactionLogger
              {| dbName := "kv"; host := "localhost"; user := "kv"; password := "kv" |}
              (walk_fails 0 "driver: bad connection") torn_log).1
    = serial torn_log
  ∧ (journal (NewPostgresTransactionLogger
                {| dbName := "kv"; host := "localhost"; user := "kv"; password := "kv" |}
                (walk_fails 0 "driver: bad connection") torn_log).1
     = journal torn_log
     ∨ journal (NewPostgresTransactionLogger
                  {| dbName := "kv"; host := "localhost"; user := "kv"; password := "kv" |}
                  (walk_fails 0 "driver: bad connection") torn_log).1
       = journal torn_log ++ ["SELECT to_regclass('public.transactions');"]).
Proof.
  apply (NewPostgresTransactionLogger_keeps_the_log
           {| dbName := "kv"; host := "localhost"; user := "kv"; password := "kv" |}
           (walk_fails 0 "driver: bad connection") torn_log).
  reflexivity.
Defined.

Lemma verifyTableExists_exact_witness :
  (verifyTableExists (walk_fails 0 "driver: bad connection") torn_log).2
  = Returns (false, Some "driver: bad connection")
  ∧ relation (verifyTableExists (walk_fails 0 "driver: bad connection") torn_log).1
    = relation torn_log.
Proof.
  apply (verifyTableExists_exact (walk_fails 0 "driver: bad connection") torn_log).
  reflexivity.
Defined.

Lemma ReadEvents_goroutine_ordered_witness :
  sent_errors (@ReadEvents_goroutine sample_types no_faults shuffled_log).2 = []
  ∧ sent_events (@ReadEvents_goroutine sample_types no_faults shuffled_log).2
    ≡ₚ [ @decode sample_types {| row_sequence := 2; row_event_type := Some 1;
                                row_key := Some "a"; row_value := Some "" |};
         @decode sample_types {| row_sequence := 1; row_event_type := Some 2;
                                row_key := Some "a"; row_value := Some "1" |} ]
  ∧ StronglySorted Z.le
      (Sequence <$> sent_events (@ReadEvents_goroutine sample_types no_faults shuffled_log).2).
Proof.
  apply (@ReadEvents_goroutine_ordered sample_types shuffled_log
           [ {| row_sequence := 2; row_event_type := Some 1;
                row_key := Some "a"; row_value := Some "" |};
             {| row_sequence := 1; row_event_type := Some 2;
                row_key := Some "a"; row_value := Some "1" |} ]).
  - reflexivity.
  - reflexivity.
Defined.

End LoggerFacts.

(** ** The start-up replay, on every log *)

Module ReplayFacts.

Import Startup StartupVocabulary ReplayVocabulary.

Section Facts.

Context `{EventTypes}.

(** *** Termination *)

Lemma step_weight s s' : step s s' → (weight s' < weight s)%nat.
Proof.
  unfold weight.
  destruct 1 as [s err rest ch Hr Hs|s rest Hr|s rest Hr|s e err ok ch Hat Hrecv
                |s e0 e rest Hat Hr|s e0 e ok ch Hat Hrecv|s e ok g err Hat Hd
                |s e ok g Hat Hd|s e ok l Hat Hres|s e ok err Hat Hleave|s err Hat];
    simpl; rewrite ?Hr, ?Hat; simpl.
  - apply LiveFacts.send_Some in Hs as (ch0 & [= <-] & _ & ->). simpl.
    rewrite length_app. simpl. lia.
  - lia.
  - lia.
  - unfold Chan.recv in Hrecv. destruct (Chan.buf (outError s)) as [|x buf] eqn:Hbuf.
    + destruct (Chan.closed (outError s)); simplify_eq. rewrite Hbuf. simpl. lia.
    + simplify_eq. simpl. destruct err; simpl; lia.
  - lia.
  - unfold Chan.recv in Hrecv. destruct (Chan.buf (outEvent s)) as [|x buf] eqn:Hbuf.
    + destruct (Chan.closed (outEvent s)); simplify_eq. rewrite Hbuf. simpl. lia.
    + simplify_eq. simpl. lia.
  - destruct ok, err; simpl; lia.
  - destruct ok; simpl; lia.
  - destruct ok; simpl; lia.
  - destruct Hleave as [->|Herr]; [simpl; lia|].
    destruct err; [|done]. destruct ok; simpl; lia.
  - lia.
Qed.

(** X11: the machine of the start-up has no infinite execution, from any
    state: every step lowers a weight, so that the loop and the goroutine
    either come to the return or come to rest waiting, after a number of
    steps the weight of the start bounds. *)
Theorem startup_terminates n s s' :
  nsteps step n s s' → (n + weight s' ≤ weight s)%nat.
Proof.
  induction 1 as [|n s1 s2 s3 Hstep _ IH]; [lia|].
  apply step_weight in Hstep. lia.
Qed.

(** *** The goroutine is never held up by the error channel *)

Lemma step_tidy s s' : step s s' → tidy s → tidy s'.
Proof.
  unfold tidy.
  destruct 1 as [s err rest ch Hr Hs|s rest Hr|s rest Hr|s e err ok ch Hat Hrecv
                |s e0 e rest Hat Hr|s e0 e ok ch Hat Hrecv|s e ok g err Hat Hd
                |s e ok g Hat Hd|s e ok l Hat Hres|s e ok err Hat Hleave|s err Hat];
    simpl; rewrite ?Hr; try done; intros (Hcap & Hsome & Hlen).
  - apply LiveFacts.send_Some in Hs as (ch0 & [= <-] & _ & ->). simpl.
    split_and!; [done| |].
    + apply Forall_app. split; [done|]. by repeat constructor.
    + change (sent_errors (SendError err :: rest)) with (err :: sent_errors rest) in Hlen.
      rewrite length_app. simpl in *. lia.
  - unfold Chan.recv in Hrecv. destruct (Chan.buf (outError s)) as [|x buf] eqn:Hbuf.
    + destruct (Chan.closed (outError s)); simplify_eq. by rewrite Hbuf.
    + simplify_eq. simpl. apply Forall_cons in Hsome as [_ Hsome].
      split_and!; [done..|]. simpl in Hlen. lia.
Qed.

Lemma steps_tidy s s' : rtc step s s' → tidy s → tidy s'.
Proof. induction 1; eauto using step_tidy. Qed.

Lemma enter_tidy g f srv : tidy (enter g f srv).
Proof.
  unfold tidy, enter, ReadEvents.
  destruct (LoggerFacts.goroutine_split f srv) as (es & errs & Hs & Hlen).
  destruct (ReadEvents_goroutine f srv) as [srv' script]. simpl in *. subst script.
  split_and!; [done|constructor|].
  rewrite !sent_errors_app, sent_errors_SendEvent, LoggerFacts.sent_errors_SendError.
  change (sent_errors [CloseError; CloseEvent]) with (@nil error).
  rewrite app_nil_r. simpl. lia.
Qed.

(** X12: the goroutine of [ReadEvents] is never held up by its error
    channel: in every state of the start-up, when its next action is the
    send of an error or a close, that action can be taken at once; only
    the send of an event waits, for the loop. *)
Theorem goroutine_not_held_up g f srv s a rest :
  rtc step (enter g f srv) s →
  reader s = a :: rest →
  (∀ e, a ≠ SendEvent e) →
  ∃ s', step s s' ∧ reader s' = rest ∧ at_ s' = at_ s.
Proof.
  intros Hsteps Hr Ha.
  pose proof (steps_tidy _ _ Hsteps (enter_tidy g f srv)) as (Hcap & _ & Hlen).
  destruct a as [e|err| |].
  - by destruct (Ha e).
  - rewrite Hr in Hlen.
    change (sent_errors (SendError err :: rest)) with (err :: sent_errors rest) in Hlen.
    simpl in Hlen. eexists. split.
    { eapply step_send_error; [exact Hr|]. apply LiveFacts.send_room. lia. }
    done.
  - eexists. split; [by eapply step_close_error|done].
  - eexists. split; [by eapply step_close_event|done].
Qed.

(** *** A log the switch has no case for *)

Lemma dispatch_skips e g : applies e = false → dispatch e g = (g, Some None).
Proof.
  unfold applies, dispatch. intros [Hd Hp]%orb_false_iff. by rewrite Hd, Hp.
Qed.

Lemma applies_type e :
  applies e = true → EventType e = EventDelete ∨ EventType e = EventPut.
Proof. unfold applies. intros [?%Z.eqb_eq|?%Z.eqb_eq]%orb_true_iff; auto. Qed.

Lemma step_calm m s s' :
  applies Event_zero = false → coherent s → step s s' → calm m s → calm m s'.
Proof.
  unfold calm. intros Hzero (_ & Hbuf & _) Hstep (Hst & Hev & Hpend & Hpark).
  destruct Hstep as [s err rest ch Hr Hs|s rest Hr|s rest Hr|s e err ok ch Hat Hrecv
                    |s e0 e rest Hat Hr|s e0 e ok ch Hat Hrecv|s e ok g err Hat Hd
                    |s e ok g Hat Hd|s e ok l Hat Hres|s e ok err Hat Hleave|s err Hat];
    simpl; rewrite ?Hr in Hev.
  - by split_and!.
  - by split_and!.
  - by split_and!.
  - split_and!; [done..| |done]. intros ? ? [=].
  - change (sent_events (SendEvent e :: rest)) with (e :: sent_events rest) in Hev.
    simpl in Hev. apply andb_true_iff in Hev as [He Hev].
    split_and!; [done..| |done]. intros ? ? [= <- <-]. by apply negb_true_iff.
  - unfold Chan.recv in Hrecv. rewrite Hbuf in Hrecv.
    destruct (Chan.closed (outEvent s)); simplify_eq.
    split_and!; [done..| |done]. by intros ? ? [= <- <-].
  - rewrite (dispatch_skips e _ (Hpend _ _ Hat)) in Hd. simplify_eq.
    split_and!; [done..| |done]. intros ? ? [=].
  - by rewrite (dispatch_skips e _ (Hpend _ _ Hat)) in Hd.
  - by destruct (Hpark e ok).
  - split_and!; [done..| |done]. intros ? ? [=].
  - split_and!; [done..| |done]. intros ? ? [=].
Qed.

Lemma enter_calm g f srv :
  forallb (λ e, negb (applies e)) (sent_events (ReadEvents_goroutine f srv).2) = true →
  calm (store g) (enter g f srv).
Proof.
  intros Hev. unfold calm, enter, ReadEvents.
  destruct (ReadEvents_goroutine f srv) as [srv' script]. simpl in *.
  split_and!; [done..| |done]. intros ? ? [=].
Qed.

Lemma step_clean s s' : step s s' → clean s → clean s'.
Proof.
  unfold clean.
  destruct 1 as [s err rest ch Hr Hs|s rest Hr|s rest Hr|s e err ok ch Hat Hrecv
                |s e0 e rest Hat Hr|s e0 e ok ch Hat Hrecv|s e ok g err Hat Hd
                |s e ok g Hat Hd|s e ok l Hat Hres|s e ok err Hat Hleave|s err Hat];
    simpl; rewrite ?Hr, ?Hat; simpl; intros (Herrs & Hbuf & Hheld); try done.
  - unfold Chan.recv in Hrecv. rewrite Hbuf in Hrecv.
    destruct (Chan.closed (outError s)); simplify_eq. by rewrite Hbuf.
  - by rewrite (StartupFacts.dispatch_nil _ _ _ _ Hd).
Qed.

Lemma steps_calm m s s' :
  applies Event_zero = false → rtc step s s' → coherent s → calm m s → calm m s'.
Proof.
  intros Hzero. induction 1 as [|s1 s2 s3 Hstep _ IH]; intros Hco Hca; [done|].
  apply IH; [by eapply StartupFacts.step_coherent|by eapply step_calm].
Qed.

Lemma steps_clean s s' : rtc step s s' → clean s → clean s'.
Proof. induction 1; eauto using step_clean. Qed.

(** With nothing for the [switch] to apply, the machine can move until
    the function has returned. *)
Lemma calm_progress m s :
  coherent s → tidy s → calm m s → (∀ err, at_ s ≠ Returned err) → ∃ s', step s s'.
Proof.
  intros (Hw & Hbuf & _) (Hcap & _ & Hlen) (_ & _ & Hpend & Hpark) Hret.
  destruct (at_ s) as [e ok err|e ok|e ok|err|err] eqn:Hat.
  - destruct ok; [|eexists; eapply step_leave; [exact Hat|by left]].
    destruct err as [err|]; [eexists; eapply step_leave; [exact Hat|by right]|].
    destruct (reader s) as [|[e'|err'| |] rest] eqn:Hr.
    + destruct Hw as [(_ & _ & body & Hb & _)|[(_ & _ & ?)|(_ & Hcv & _)]].
      * by destruct body.
      * done.
      * eexists. eapply step_recv_closed; [exact Hat|].
        unfold Chan.recv. by rewrite Hbuf, Hcv.
    + eexists. by eapply step_recv_event.
    + change (sent_errors (SendError err' :: rest)) with (err' :: sent_errors rest) in Hlen.
      simpl in Hlen. eexists.
      eapply step_send_error; [exact Hr|]. apply LiveFacts.send_room. lia.
    + eexists. by eapply step_close_error.
    + eexists. by eapply step_close_event.
  - eexists. eapply step_applied; [exact Hat|]. apply dispatch_skips. by eapply Hpend.
  - by destruct (Hpark e ok).
  - eexists. by eapply step_run.
  - by destruct (Hret err).
Qed.

Lemma calm_returns m n s :
  applies Event_zero = false →
  (weight s ≤ n)%nat → coherent s → tidy s → calm m s →
  ∃ s' err, rtc step s s' ∧ at_ s' = Returned err.
Proof.
  intros Hzero. revert s. induction n as [|n IH]; intros s Hn Hco Hti Hca.
  - unfold weight in Hn. destruct (at_ s) as [? [] []| ? []| ? []| |]; simpl in Hn; lia.
  - destruct (at_ s) as [e ok err|e ok|e ok|err|err] eqn:Hat;
      try (destruct (calm_progress m s Hco Hti Hca) as [s1 Hstep];
           [intros ?; by rewrite Hat|];
           pose proof (step_weight _ _ Hstep) as Hlt;
           destruct (IH s1) as (s' & err' & Hsteps & Hat');
           [lia|by eapply StartupFacts.step_coherent|by eapply step_tidy
           |by eapply step_calm|];
           exists s', err'; split; [by eapply rtc_l|done]).
    exists s, err. by split.
Qed.

(** X13: on a log whose stream holds no event of the two types, the
    empty log of a first start among them, the start-up completes
    whatever else happens: no execution changes the store, none can stop
    anywhere but at the return, and the return is reached; when the
    stream holds no error either, the loop never holds one, so the
    function returns nil and [main] goes on to serve.  The zero [Event]
    that the receive from the closed channel yields goes through the
    [switch] as well, and has to be of neither type. *)
Theorem replay_returns g f srv :
  applies Event_zero = false →
  forallb (λ e, negb (applies e)) (sent_events (ReadEvents_goroutine f srv).2) = true →
  (∀ s, rtc step (enter g f srv) s →
     store (globals s) = store g
     ∧ (stuck s → ∃ err, at_ s = Returned err)
     ∧ (sent_errors (ReadEvents_goroutine f srv).2 = [] →
        held (at_ s) = None ∧ (stuck s → main (held (at_ s)) = Serving)))
  ∧ ∃ s err, rtc step (enter g f srv) s ∧ at_ s = Returned err.
Proof.
  intros Hzero Hev.
  assert (∀ s, rtc step (enter g f srv) s →
               coherent s ∧ tidy s ∧ calm (store g) s) as Hinv.
  { intros s Hsteps. split_and!.
    - eapply StartupFacts.steps_coherent; [exact Hsteps|apply StartupFacts.enter_coherent].
    - eapply steps_tidy; [exact Hsteps|apply enter_tidy].
    - eapply steps_calm; [exact Hzero|exact Hsteps|apply StartupFacts.enter_coherent|].
      by apply enter_calm. }
  split.
  - intros s Hsteps. destruct (Hinv s Hsteps) as (Hco & Hti & Hca).
    split_and!; [by destruct Hca| |].
    + intros Hstuck. destruct (at_ s) as [e ok err|e ok|e ok|err|err] eqn:Hat;
        try (destruct (calm_progress (store g) s Hco Hti Hca) as [s1 Hstep];
             [intros ?; by rewrite Hat|]; by destruct (Hstuck s1)).
      by exists err.
    + intros Herrs.
      assert (clean s) as (_ & _ & Hheld).
      { eapply steps_clean; [exact Hsteps|].
        unfold clean, enter, ReadEvents.
        destruct (ReadEvents_goroutine f srv) as [srv' script]. by simpl in *. }
      split; [done|]. by rewrite Hheld.
  - destruct (Hinv _ (rtc_refl _ _)) as (Hco & Hti & Hca).
    by eapply (calm_returns (store g) _ _ Hzero (Nat.le_refl _)).
Qed.

(** *** A log that holds a Put or a Delete *)

Lemma first_applying es :
  existsb applies es = true →
  ∃ pre e post, es = pre ++ e :: post
                ∧ forallb (λ e, negb (applies e)) pre = true ∧ applies e = true.
Proof.
  induction es as [|e es IH]; [done|]. simpl.
  destruct (applies e) eqn:He.
  - intros _. by exists [], e, es.
  - intros (pre & e' & post & -> & Hpre & He')%IH.
    exists (e :: pre), e', post. simpl. by rewrite He.
Qed.

Lemma replay_parks_after g f srv pre e rest s :
  events (logger g) = None →
  (ReadEvents_goroutine f srv).2 = (SendEvent <$> pre) ++ SendEvent e :: rest →
  forallb (λ e, negb (applies e)) pre = true →
  applies e = true →
  rtc step (enter g f srv) s →
  (store (globals s) = store g
   ∧ (∃ pre', reader s = (SendEvent <$> pre') ++ SendEvent e :: rest
              ∧ forallb (λ e, negb (applies e)) pre' = true)
   ∧ outError s = Chan.make (option error) 1 ∧ outEvent s = Chan.make Event 0
   ∧ ((∃ e0, at_ s = Selecting e0 true None)
      ∨ (∃ e0, at_ s = Switching e0 true ∧ applies e0 = false)))
  ∨ (at_ s = Switching e true ∧ store (globals s) = store g)
  ∨ (at_ s = Parked e true ∧ store (globals s) = replayed (store g) e).
Proof.
  intros Hnil Hscript Hpre He. revert s. apply rtc_ind_r.
  { left. unfold enter, ReadEvents. destruct (ReadEvents_goroutine f srv); simpl in *.
    subst. split_and!; [done|by exists pre|done..|]. left. by eexists. }
  intros s s' Hsteps Hstep Hcase.
  pose proof (StartupFacts.steps_gated _ _ Hsteps (StartupFacts.enter_gated g f srv Hnil))
    as Hg.
  unfold gated in Hg.
  destruct Hcase as [(Hst & (pre' & Hr & Hpre') & Herr & Hev & Hat)
                    |[(Hat & Hst)|(Hat & Hst)]].
  - assert (∀ a rest', reader s = a :: rest' → ∃ e1, a = SendEvent e1) as Hhead.
    { intros a rest' Hr'. rewrite Hr in Hr'. destruct pre'; simplify_eq/=; eauto. }
    destruct Hstep as [s err rest0 ch Hr' Hs|s rest0 Hr'|s rest0 Hr'|s e1 err ok ch Hat' Hrecv
                      |s e0 e1 rest0 Hat' Hr'|s e0 e1 ok ch Hat' Hrecv|s e1 ok g1 err Hat' Hd
                      |s e1 ok g1 Hat' Hd|s e1 ok l Hat' Hres|s e1 ok err Hat' Hleave
                      |s err Hat']; simpl.
    + by destruct (Hhead _ _ Hr').
    + by destruct (Hhead _ _ Hr').
    + by destruct (Hhead _ _ Hr').
    + by rewrite Herr in Hrecv.
    + rewrite Hr in Hr'. destruct pre' as [|e2 pre']; simplify_eq/=.
      * right. left. by split.
      * apply andb_true_iff in Hpre' as [He2 Hpre']. left.
        split_and!; [done|by exists pre'|done..|].
        right. exists e1. split; [done|]. by apply negb_true_iff.
    + by rewrite Hev in Hrecv.
    + destruct Hat as [[e0 Hat]|[e0 [Hat He0]]]; rewrite Hat in Hat'; simplify_eq.
      rewrite (dispatch_skips _ _ He0) in Hd. simplify_eq.
      left. split_and!; [done|by exists pre'|done..|]. left. by eexists.
    + destruct Hat as [[e0 Hat]|[e0 [Hat He0]]]; rewrite Hat in Hat'; simplify_eq.
      by rewrite (dispatch_skips _ _ He0) in Hd.
    + destruct Hat as [[e0 Hat]|[e0 [Hat He0]]]; rewrite Hat in Hat'; simplify_eq.
    + destruct Hat as [[e0 Hat]|[e0 [Hat He0]]]; rewrite Hat in Hat'; simplify_eq.
      by destruct Hleave.
    + destruct Hat as [[e0 Hat]|[e0 [Hat He0]]]; rewrite Hat in Hat'; simplify_eq.
  - rewrite Hat in Hg.
    destruct Hstep as [s err rest0 ch Hr' Hs|s rest0 Hr'|s rest0 Hr'|s e1 err ok ch Hat' Hrecv
                      |s e0 e1 rest0 Hat' Hr'|s e0 e1 ok ch Hat' Hrecv|s e1 ok g1 err Hat' Hd
                      |s e1 ok g1 Hat' Hd|s e1 ok l Hat' Hres|s e1 ok err Hat' Hleave
                      |s err Hat']; simpl; try (rewrite Hat in Hat'; simplify_eq);
      try (right; left; by split).
    + by rewrite (StartupFacts.dispatch_parks _ _ Hg (applies_type _ He)) in Hd.
    + rewrite (StartupFacts.dispatch_parks _ _ Hg (applies_type _ He)) in Hd.
      simplify_eq. right. right. simpl. by rewrite Hst.
  - rewrite Hat in Hg.
    destruct Hstep as [s err rest0 ch Hr' Hs|s rest0 Hr'|s rest0 Hr'|s e1 err ok ch Hat' Hrecv
                      |s e0 e1 rest0 Hat' Hr'|s e0 e1 ok ch Hat' Hrecv|s e1 ok g1 err Hat' Hd
                      |s e1 ok g1 Hat' Hd|s e1 ok l Hat' Hres|s e1 ok err Hat' Hleave
                      |s err Hat']; simpl; try (rewrite Hat in Hat'; simplify_eq);
      try (right; right; by split).
    by rewrite (StartupFacts.resume_parks _ _ Hg) in Hres.
Qed.

(** X14: on any log whose stream holds a Put or a Delete, whatever comes
    before or after it and whatever fails, [initializeTransactionLog]
    never leaves its loop: [Run] is never called and nothing is returned.
    The store gets the first such event and nothing more. *)
Theorem replay_never_returns g f srv s :
  events (logger g) = None →
  existsb applies (sent_events (ReadEvents_goroutine f srv).2) = true →
  rtc step (enter g f srv) s →
  (∀ err, at_ s ≠ Leaving err ∧ at_ s ≠ Returned err)
  ∧ ¬ active s
  ∧ (store (globals s) = store g
     ∨ ∃ e, e ∈ sent_events (ReadEvents_goroutine f srv).2 ∧ applies e = true
            ∧ store (globals s) = replayed (store g) e).
Proof.
  intros Hnil Hex Hsteps.
  destruct (LoggerFacts.goroutine_split f srv) as (es & errs & Hs & _).
  assert (sent_events (ReadEvents_goroutine f srv).2 = es) as Hes.
  { rewrite Hs, !sent_events_app, sent_events_SendEvent, LoggerFacts.sent_events_SendError.
    by rewrite app_nil_r. }
  rewrite Hes in Hex |- *.
  destruct (first_applying es Hex) as (pre & e & post & -> & Hpre & He).
  rewrite fmap_app, fmap_cons, <- !app_assoc in Hs. simpl in Hs.
  pose proof (StartupFacts.steps_gated _ _ Hsteps (StartupFacts.enter_gated g f srv Hnil))
    as Hg.
  unfold gated, active in *.
  assert (e ∈ pre ++ e :: post) as Hin by (apply elem_of_app; right; left).
  destruct (replay_parks_after g f srv pre e _ s Hnil Hs Hpre He Hsteps)
    as [(Hst & _ & _ & _ & [[e0 Hat]|[e0 [Hat _]]])|[(Hat & Hst)|(Hat & Hst)]];
    rewrite Hat in Hg |- *.
  - split_and!; [done|by intros []|by left].
  - split_and!; [done|by intros []|by left].
  - split_and!; [done|by intros []|by left].
  - split_and!; [done|by intros []|]. right. by exists e.
Qed.

(** *** An error the loop does not see *)

(** X15: when the query of [ReadEvents] fails, there is an execution in
    which the error is lost: the goroutine puts the error in its channel
    and closes both channels before the loop selects; the [select] takes
    the closed event channel, the loop ends on [ok] false with a nil
    [err], and [initializeTransactionLog] returns nil while the error
    lies unreceived in [outError]; [main] then serves on the store as it
    was. *)
Theorem replay_error_lost g f srv err :
  query_fault f = Some err →
  applies Event_zero = false →
  ∃ s, rtc step (enter g f srv) s
       ∧ at_ s = Returned None
       ∧ Chan.buf (outError s) = [Some (Errorf "sql query error" err)]
       ∧ store (globals s) = store g
       ∧ main (held (at_ s)) = Serving.
Proof.
  intros Hq Hzero.
  assert (enter g f srv
          = {| globals := g; server := srv;
               reader := [SendError (Errorf "sql query error" err); CloseError; CloseEvent];
               outEvent := Chan.make Event 0;
               outError := Chan.make (option error) 1;
               at_ := Selecting Event_zero true None |}) as ->.
  { unfold enter, ReadEvents, ReadEvents_goroutine. by rewrite Hq. }
  set (msg := Errorf "sql query error" err).
  set (sent := {| Chan.buf := [Some msg]; Chan.cap := 1; Chan.closed := false |}).
  set (s0 := {| globals := g; server := srv;
                reader := [SendError msg; CloseError; CloseEvent];
                outEvent := Chan.make Event 0; outError := Chan.make (option error) 1;
                at_ := Selecting Event_zero true None |}).
  set (s1 := {| globals := g; server := srv; reader := [CloseError; CloseEvent];
                outEvent := Chan.make Event 0; outError := sent;
                at_ := Selecting Event_zero true None |}).
  set (s2 := {| globals := g; server := srv; reader := [CloseEvent];
                outEvent := Chan.make Event 0; outError := Chan.close sent;
                at_ := Selecting Event_zero true None |}).
  set (s3 := {| globals := g; server := srv; reader := [];
                outEvent := Chan.close (Chan.make Event 0); outError := Chan.close sent;
                at_ := Selecting Event_zero true None |}).
  set (s4 := {| globals := g; server := srv; reader := [];
                outEvent := Chan.close (Chan.make Event 0); outError := Chan.close sent;
                at_ := Switching Event_zero false |}).
  set (s5 := {| globals := g; server := srv; reader := [];
                outEvent := Chan.close (Chan.make Event 0); outError := Chan.close sent;
                at_ := Selecting Event_zero false None |}).
  set (s6 := {| globals := g; server := srv; reader := [];
                outEvent := Chan.close (Chan.make Event 0); outError := Chan.close sent;
                at_ := Leaving None |}).
  set (s7 := {| globals := {| store := store g; logger := Run (logger g) |};
                server := srv; reader := [];
                outEvent := Chan.close (Chan.make Event 0); outError := Chan.close sent;
                at_ := Returned None |}).
  exists s7. split; [|done].
  apply (rtc_l _ s0 s1); [exact (step_send_error s0 msg _ sent eq_refl eq_refl)|].
  apply (rtc_l _ s1 s2); [exact (step_close_error s1 _ eq_refl)|].
  apply (rtc_l _ s2 s3); [exact (step_close_event s2 _ eq_refl)|].
  apply (rtc_l _ s3 s4);
    [exact (step_recv_closed s3 Event_zero Event_zero false _ eq_refl eq_refl)|].
  apply (rtc_l _ s4 s5);
    [exact (step_applied s4 Event_zero false g None eq_refl (dispatch_skips _ _ Hzero))|].
  apply (rtc_l _ s5 s6);
    [exact (step_leave s5 Event_zero false None eq_refl (or_introl eq_refl))|].
  apply (rtc_l _ s6 s7); [exact (step_run s6 None eq_refl)|].
  apply rtc_refl.
Qed.

(** *** The store effect of a replay *)

Lemma replayed_frame m e k : Key e ≠ k → replayed m e !! k = m !! k.
Proof.
  intros Hk. unfold replayed.
  destruct (EventType e =? EventDelete); [by rewrite lookup_delete_ne|].
  destruct (EventType e =? EventPut); [by rewrite lookup_insert_ne|done].
Qed.

Lemma foldl_replayed_frame m es k :
  Forall (λ e, Key e ≠ k) es → foldl replayed m es !! k = m !! k.
Proof.
  revert m. induction es as [|e es IH]; intros m Hes; [done|].
  apply Forall_cons in Hes as [He Hes]. simpl. rewrite IH by done.
  by apply replayed_frame.
Qed.

(** X16: what a replay makes of a key is decided by the last event of
    the stream on that key alone: after a Delete the key is absent, after
    a Put it has the value of that Put, whatever came before; a key no
    event names is as it was.  The [switch] tests [EventDelete] first. *)
Theorem replayed_last_event m es e es' :
  applies e = true →
  Forall (λ e', Key e' ≠ Key e) es' →
  foldl replayed m (es ++ e :: es') !! Key e
  = (if EventType e =? EventDelete then None else Some (Value e))
  ∧ ∀ k, Forall (λ e', Key e' ≠ k) (es ++ e :: es') →
         foldl replayed m (es ++ e :: es') !! k = m !! k.
Proof.
  intros He Hes'. split; [|intros k Hk; by apply foldl_replayed_frame].
  rewrite foldl_app. simpl. rewrite foldl_replayed_frame by done.
  unfold applies in He. unfold replayed.
  destruct (EventType e =? EventDelete); [by rewrite lookup_delete_eq|].
  simpl in He. rewrite He. by rewrite lookup_insert_eq.
Qed.

End Facts.

Lemma startup_terminates_witness :
  (4 + weight failed_replay
   ≤ weight (@enter sample_types initial (query_fails "driver: bad connection") fresh))%nat.
Proof.
  apply (@startup_terminates sample_types 4).
  eapply nsteps_l; [eapply step_send_error; reflexivity|].
  eapply nsteps_l; [eapply step_recv_error; reflexivity|].
  eapply nsteps_l; [eapply step_leave; [reflexivity|by right]|].
  eapply nsteps_l; [eapply step_run; reflexivity|].
  apply nsteps_O.
Defined.

Lemma goroutine_not_held_up_witness :
  ∃ s', @step sample_types
          (@enter sample_types initial (query_fails "driver: bad connection") fresh) s'
        ∧ reader s' = [CloseError; CloseEvent]
        ∧ at_ s' = at_ (@enter sample_types initial
                          (query_fails "driver: bad connection") fresh).
Proof.
  apply (@goroutine_not_held_up sample_types initial
           (query_fails "driver: bad connection") fresh _
           (SendError "sql query error: driver: bad connection")).
  - apply rtc_refl.
  - reflexivity.
  - intros e. discriminate.
Defined.

Lemma replay_returns_witness :
  (∀ s, rtc (@step sample_types) (@enter sample_types initial no_faults fresh) s →
     store (globals s) = store initial
     ∧ (@stuck sample_types s → ∃ err, at_ s = Returned err)
     ∧ (sent_errors (@ReadEvents_goroutine sample_types no_faults fresh).2 = [] →
        held (at_ s) = None ∧ (@stuck sample_types s → main (held (at_ s)) = Serving)))
  ∧ ∃ s err, rtc (@step sample_types) (@enter sample_types initial no_faults fresh) s
             ∧ at_ s = Returned err.
Proof.
  apply (@replay_returns sample_types initial no_faults fresh).
  - reflexivity.
  - reflexivity.
Defined.

Lemma replay_never_returns_witness :
  (∀ err, at_ (@enter sample_types initial no_faults one_put_log) ≠ Leaving err
          ∧ at_ (@enter sample_types initial no_faults one_put_log) ≠ Returned err)
  ∧ ¬ active (@enter sample_types initial no_faults one_put_log)
  ∧ (store (globals (@enter sample_types initial no_faults one_put_log)) = store initial
     ∨ ∃ e, e ∈ sent_events (@ReadEvents_goroutine sample_types no_faults one_put_log).2
            ∧ @applies sample_types e = true
            ∧ store (globals (@enter sample_types initial no_faults one_put_log))
              = @replayed sample_types (store initial) e).
Proof.
  apply (@replay_never_returns sample_types initial no_faults one_put_log).
  - reflexivity.
  - reflexivity.
  - apply rtc_refl.
Defined.

Lemma replay_error_lost_witness :
  ∃ s, rtc (@step sample_types)
         (@enter sample_types initial (query_fails "driver: bad connection") fresh) s
       ∧ at_ s = Returned None
       ∧ Chan.buf (outError s) = [Some (Errorf "sql query error" "driver: bad connection")]
       ∧ store (globals s) = store initial
       ∧ main (held (at_ s)) = Serving.
Proof.
  apply (@replay_error_lost sample_types initial
           (query_fails "driver: bad connection") fresh "driver: bad connection").
  - reflexivity.
  - reflexivity.
Defined.

Lemma replayed_last_event_witness :
  foldl (@replayed sample_types) ∅
    ([{| Sequence := 1; EventType := 2; Key := "a"; Value := "1" |}]
     ++ {| Sequence := 2; EventType := 1; Key := "a"; Value := "" |}
     :: [{| Sequence := 3; EventType := 2; Key := "b"; Value := "2" |}])
  !! "a"
  = None
  ∧ ∀ k, Forall (λ e', Key e' ≠ k)
           ([{| Sequence := 1; EventType := 2; Key := "a"; Value := "1" |}]
            ++ {| Sequence := 2; EventType := 1; Key := "a"; Value := "" |}
            :: [{| Sequence := 3; EventType := 2; Key := "b"; Value := "2" |}]) →
         foldl (@replayed sample_types) ∅
           ([{| Sequence := 1; EventType := 2; Key := "a"; Value := "1" |}]
            ++ {| Sequence := 2; EventType := 1; Key := "a"; Value := "" |}
            :: [{| Sequence := 3; EventType := 2; Key := "b"; Value := "2" |}])
         !! k
         = (∅ : gmap string string) !! k.
Proof.
  apply (@replayed_last_event sample_types ∅
           [{| Sequence := 1; EventType := 2; Key := "a"; Value := "1" |}]
           {| Sequence := 2; EventType := 1; Key := "a"; Value := "" |}
           [{| Sequence := 3; EventType := 2; Key := "b"; Value := "2" |}]).
  - reflexivity.
  - repeat constructor. simpl. discriminate.
Defined.

End ReplayFacts.

(** ** The pipeline at work, failures included *)

Module PipelineFacts.

Import Live LiveVocabulary.

Section Facts.

Context `{EventTypes}.






Lemma run_queue_bounded m0 l srv0 t s :
  run (start m0 l srv0) t s →
  ∃ ch, events (logger (globals s)) = Some ch ∧ Chan.cap ch = 16%nat
        ∧ (length (Chan.buf ch) ≤ 16)%nat.
Proof.
  induction 1 as [|t s l0 s' _ (ch & Hev & Hcap & Hlen) Hstep].
  { eexists. split; [reflexivity|]. simpl. split; [done|lia]. }
  destruct Hstep as [s key value g err Hput|s key g err Hdel|s ch0 e ch' Hw Hev0 Hrecv
                    |s ch0 e ch' Hw Hev0 Hrecv|s e srv Hw Hins|s e srv err Hw Hins
                    |s e err Hw|s err ch0 Hw Hsend|s ch0 err ch' Herr Hrecv];
    simpl in *; try (by exists ch).
  - apply LiveFacts.Put_returns in Hput as (_ & ch0 & Hev0 & Hroom & ->). simpl.
    rewrite Hev in Hev0. simplify_eq. eexists. split; [done|]. simpl.
    rewrite length_app. simpl. split; [done|lia].
  - apply LiveFacts.Delete_returns in Hdel as (_ & ch0 & Hev0 & Hroom & ->). simpl.
    rewrite Hev in Hev0. simplify_eq. eexists. split; [done|]. simpl.
    rewrite length_app. simpl. split; [done|lia].
  - rewrite Hev in Hev0. simplify_eq.
    apply LiveFacts.recv_Some in Hrecv as (Hbuf & Hcap' & _).
    exists ch'. split; [done|]. rewrite Hbuf in Hlen. simpl in Hlen.
    split; [congruence|lia].
Qed.

(** X18: the two buffers are bounded in every run: the queue never
    holds more than sixteen events and the error channel never more than
    one error, whatever the callers and the failures. *)
Theorem pipeline_bounded m0 l srv0 t s :
  run (start m0 l srv0) t s →
  (length (queued s) ≤ 16)%nat ∧ (length (reported s) ≤ 1)%nat.
Proof.
  intros Hrun. unfold queued, reported.
  destruct (run_queue_bounded _ _ _ _ _ Hrun) as (ch & -> & _ & Hlen).
  destruct (LiveFacts.run_wired _ _ _ _ _ Hrun) as (_ & (ch2 & -> & _ & _ & Hlen2) & _).
  done.
Qed.

End Facts.


Lemma pipeline_bounded_witness :
  (length (queued clogged) ≤ 16)%nat ∧ (length (reported clogged) ≤ 1)%nat.
Proof.
  apply (@pipeline_bounded sample_types ∅ constructed fresh two_failures clogged).
  exact LiveFacts.run_two_failures.
Defined.

End PipelineFacts.
